(** * aboleth/layer.py: variational layers, kernels and distributions

    A shallow embedding of [aboleth/layer.py].

    - Tensors (TensorFlow tensors and NumPy arrays alike) are scalars,
      vectors and matrices over the real numbers; float32 rounding is not
      part of the model.  Elementwise binary operations follow the NumPy
      broadcasting rule and fail on incompatible static shapes.
    - TensorFlow operations are given their value semantics: a tensor is
      the value it evaluates to, a [tf.Variable] is a cell appended to a
      store (holding its initial value), and a random operation consumes
      draws from an explicit generator state.  The values drawn are the
      generator's; the argument check of [np.random.chisquare], which
      refuses [df <= 0] with a [ValueError], is part of the model.
    - Python exceptions are the [Raise] results of a state-and-error
      monad; a build function is a computation in that monad returning the
      output list and the scalar KL term.

    Embedded: the layers [eye], [activation], [fork], [lmap], [cat],
    [dense_var] and [randomFourier], the kernels [RBF] and [Matern], and
    the distributions [_Normal], [_NormPrior], [_NormPosterior] and
    [_MixPosterior] with [_log_norm] and [_input_dim]. *)

From Stdlib Require Import String.
From Stdlib Require Import Reals List Lra Lia Bool Arith ZArith.
Import ListNotations.
Open Scope R_scope.

Set Implicit Arguments.

(** ** Tensors *)

Inductive shape : Type :=
| S0
| S1 (n : nat)
| S2 (r c : nat).

(** A matrix carries its static column count, so that the feature
    dimension is known even when there are no rows. *)
Inductive tensor : Type :=
| Scal (x : R)
| Vect (v : list R)
| Matr (c : nat) (m : list (list R)).

Definition get_shape (t : tensor) : shape :=
  match t with
  | Scal _ => S0
  | Vect v => S1 (length v)
  | Matr c m => S2 (length m) c
  end.

Definition wf (t : tensor) : Prop :=
  match t with
  | Matr c m => Forall (fun row => length row = c) m
  | _ => True
  end.

(** The entries of a tensor in row-major order. *)
Definition telts (t : tensor) : list R :=
  match t with
  | Scal x => [x]
  | Vect v => v
  | Matr _ m => concat m
  end.

Definition tmap (f : R -> R) (t : tensor) : tensor :=
  match t with
  | Scal x => Scal (f x)
  | Vect v => Vect (map f v)
  | Matr c m => Matr c (map (map f) m)
  end.

Fixpoint zipWith {A B C : Type} (f : A -> B -> C) (u : list A) (v : list B)
  : list C :=
  match u, v with
  | a :: u', b :: v' => f a b :: zipWith f u' v'
  | _, _ => []
  end.

(** Broadcasting of one axis: equal sizes, or one of them 1. *)
Definition bdim (a b : nat) : option nat :=
  if (a =? b)%nat then Some a
  else if (a =? 1)%nat then Some b
  else if (b =? 1)%nat then Some a
  else None.

Definition bcast {A B : Type} (f : A -> A -> B) (u v : list A) : list B :=
  if (length u =? length v)%nat then zipWith f u v
  else match u, v with
       | [a], _ => map (f a) v
       | _, [b] => map (fun x => f x b) u
       | _, _ => []
       end.

(** Elementwise binary operation with broadcasting; [None] is the shape
    error raised when the static shapes are incompatible. *)
Definition tbin (f : R -> R -> R) (a b : tensor) : option tensor :=
  match a, b with
  | Scal x, _ => Some (tmap (f x) b)
  | _, Scal y => Some (tmap (fun x => f x y) a)
  | Vect u, Vect v =>
      match bdim (length u) (length v) with
      | Some _ => Some (Vect (bcast f u v))
      | None => None
      end
  | Vect u, Matr c m =>
      match bdim (length u) c with
      | Some c' => Some (Matr c' (map (fun row => bcast f u row) m))
      | None => None
      end
  | Matr c m, Vect v =>
      match bdim c (length v) with
      | Some c' => Some (Matr c' (map (fun row => bcast f row v) m))
      | None => None
      end
  | Matr c1 m1, Matr c2 m2 =>
      match bdim (length m1) (length m2), bdim c1 c2 with
      | Some _, Some c' => Some (Matr c' (bcast (bcast f) m1 m2))
      | _, _ => None
      end
  end.

Definition Rsum (l : list R) : R := fold_right Rplus 0 l.

Definition reduce_sum (t : tensor) : R := Rsum (telts t).

(** [tf.reduce_logsumexp] of a list of scalars. *)
Definition reduce_logsumexp (l : list R) : R := ln (Rsum (map exp l)).

Definition zeros (d : shape) : tensor :=
  match d with
  | S0 => Scal 0
  | S1 n => Vect (repeat 0 n)
  | S2 r c => Matr c (repeat (repeat 0 c) r)
  end.

Definition zeros_like (t : tensor) : tensor := tmap (fun _ => 0) t.

(** Row vector times matrix: the sum of the rows of [m] scaled by the
    entries of [row]. *)
Fixpoint vecmat (c : nat) (row : list R) (m : list (list R)) : list R :=
  match row, m with
  | a :: row', r :: m' => zipWith Rplus (map (Rmult a) r) (vecmat c row' m')
  | _, _ => repeat 0 c
  end.

(** [tf.matmul] of two rank-2 tensors; the inner dimensions must agree. *)
Definition matmul (a b : tensor) : option tensor :=
  match a, b with
  | Matr c1 m1, Matr c2 m2 =>
      if (c1 =? length m2)%nat
      then Some (Matr c2 (map (fun row => vecmat c2 row m2) m1))
      else None
  | _, _ => None
  end.

(** [tf.concat(values, axis=1)]: a list of one tensor is returned as it
    is, whatever its rank; otherwise the tensors are of rank 2 and have the
    same number of rows. *)
Fixpoint concat1 (l : list tensor) : option tensor :=
  match l with
  | [] => None
  | t :: rest =>
      match rest with
      | [] => Some t
      | _ :: _ =>
          match t, concat1 rest with
          | Matr c m, Some (Matr c' m') =>
              if (length m =? length m')%nat
              then Some (Matr (c + c') (zipWith (@app R) m m'))
              else None
          | _, _ => None
          end
      end
  end.

(** ** Exceptions and the build monad *)

Inductive exn : Type :=
| ValueError (msg : string)
| IndexError
| ZeroDivisionError
| ShapeError.

Inductive result (A : Type) : Type :=
| Ok (a : A)
| Raise (e : exn).

Arguments Ok {A} a.
Arguments Raise {A} e.

Section Layers.

(** The random generator and its primitive draws (NumPy's and
    TensorFlow's), and the positivity transform [aboleth.util.pos], are
    collaborators outside this module. *)
Variable G : Type.
Variable np_randn : G -> R * G.
Variable np_chisquare : R -> G -> R * G.
Variable tf_randn : G -> R * G.
Variable tf_multinomial : list R -> G -> nat * G.
Variable pos : R -> R.

Record state : Type := mkState { store : list tensor; gen : G }.

Definition M (A : Type) : Type := state -> result (A * state).

Definition ret {A : Type} (a : A) : M A := fun s => Ok (a, s).

Definition bind {A B : Type} (m : M A) (k : A -> M B) : M B :=
  fun s => match m s with
           | Ok (a, s') => k a s'
           | Raise e => Raise e
           end.

Definition raise {A : Type} (e : exn) : M A := fun _ => Raise e.

Definition lift {A : Type} (o : option A) : M A :=
  match o with
  | Some a => ret a
  | None => raise ShapeError
  end.

Notation "x <- m ;; k" := (bind m (fun x => k))
  (at level 61, m at next level, right associativity).
Notation "' p <- m ;; k" := (bind m (fun x => match x with p => k end))
  (at level 61, p pattern, m at next level, right associativity).

Fixpoint mapM {A B : Type} (f : A -> M B) (l : list A) : M (list B) :=
  match l with
  | [] => ret []
  | a :: l' => b <- f a ;; bs <- mapM f l' ;; ret (b :: bs)
  end.

Fixpoint replicateM {A : Type} (n : nat) (m : M A) : M (list A) :=
  match n with
  | O => ret []
  | S n' => a <- m ;; l <- replicateM n' m ;; ret (a :: l)
  end.

Definition draw (prim : G -> R * G) : M R :=
  fun s => let (x, g) := prim (gen s) in Ok (x, mkState (store s) g).

(** [tf.Variable(init)]: a new cell in the store. *)
Definition tf_Variable (init : tensor) : M tensor :=
  fun s => Ok (init, mkState (store s ++ [init]) (gen s)).

(** A tensor of the given shape filled, in row-major order, with
    successive draws of [prim]. *)
Definition random_tensor (prim : G -> R * G) (d : shape) : M tensor :=
  match d with
  | S0 => x <- draw prim ;; ret (Scal x)
  | S1 n => v <- replicateM n (draw prim) ;; ret (Vect v)
  | S2 r c => m <- replicateM r (replicateM c (draw prim)) ;; ret (Matr c m)
  end.

Definition tf_random_normal : shape -> M tensor := random_tensor tf_randn.

(** ** Layers *)

Definition tensors := list tensor.

(** def eye() *)
Definition build_eye (X : tensors) : M (tensors * R) :=
  let KL := 0 in
  ret (X, KL).

Definition eye := build_eye.

(** def activation(h=lambda X: X) *)
Definition build_activation (h : tensor -> tensor) (X : tensors)
  : M (tensors * R) :=
  let Phi := map h X in
  let KL := 0 in
  ret (Phi, KL).

Definition activation (h : tensor -> tensor) := build_activation h.

Definition activation_default := activation (fun X => X).

(** def fork(replicas=2) *)
Definition build_fork (replicas : nat) (X : tensors)
  : M (list tensors * R) :=
  let KL := 0 in
  ret (repeat X replicas, KL).

Definition fork (replicas : nat) := build_fork replicas.

(** def lmap( *layers ): the sub-layers are run in order on the paired
    inputs; unpacking the transposed results into [Phis, KLs] needs at
    least one result. *)
Definition build_lmap {I O : Type} (layers : list (I -> M (O * R)))
  (Xs : list I) : M (list O * R) :=
  if negb (length Xs =? length layers)%nat
  then raise (ValueError "Number of layers and inputs not the same!")
  else
    res <- mapM (fun pX : (I -> M (O * R)) * I => fst pX (snd pX))
                (combine layers Xs) ;;
    match res with
    | [] => raise (ValueError "not enough values to unpack (expected 2, got 0)")
    | _ :: _ =>
        let Phis := map fst res in
        let KLs := map snd res in
        let KL := fold_left Rplus KLs 0 in
        ret (Phis, KL)
    end.

Definition lmap {I O : Type} (layers : list (I -> M (O * R))) :=
  build_lmap layers.

(** def cat() *)
Definition build_cat (Xs : list tensors) : M (tensors * R) :=
  Phi <- mapM (fun X => lift (concat1 X)) Xs ;;
  let KL := 0 in
  ret (Phi, KL).

Definition cat := build_cat.

(** ** Random Fourier kernels *)

(** class RBF / class Matern(RBF) *)
Inductive kernel : Type :=
| RBF (lenscale : R)
| Matern (p : Z) (lenscale : R).

Definition np_random_randn (d0 d1 : nat) : M tensor :=
  random_tensor np_randn (S2 d0 d1).

(** [np.random.chisquare(df, size)] checks its argument before it draws:
    [df <= 0] is a [ValueError]. *)
Definition np_random_chisquare (df : R) (size : nat) : M tensor :=
  if Rle_dec df 0
  then raise (ValueError "df <= 0")
  else random_tensor (np_chisquare df) (S1 size).

Definition RBF_weights (lenscale : R) (input_dim n_features : nat)
  : M tensor :=
  P <- np_random_randn input_dim n_features ;;
  ret (tmap (fun x => x / lenscale) P).

Definition Matern_weights (p : Z) (lenscale : R) (input_dim n_features : nat)
  : M tensor :=
  let df := 2 * (IZR p + 0.5) in
  y <- np_random_randn input_dim n_features ;;
  u <- np_random_chisquare df n_features ;;
  P <- lift (tbin Rmult y (tmap sqrt (tmap (fun x => df / x) u))) ;;
  ret (tmap (fun x => x / lenscale) P).

Definition weights (k : kernel) : nat -> nat -> M tensor :=
  match k with
  | RBF lenscale => RBF_weights lenscale
  | Matern p lenscale => Matern_weights p lenscale
  end.

(** The kernels whose degrees of freedom the chi-square generator accepts:
    [df = 2*(p+0.5) = 2p+1] is positive exactly when [0 <= p]. *)
Definition kernel_ok (k : kernel) : bool :=
  match k with
  | RBF _ => true
  | Matern p _ => (0 <=? p)%Z
  end.

Definition lenscale_of (k : kernel) : R :=
  match k with
  | RBF l => l
  | Matern _ l => l
  end.

Definition with_lenscale (k : kernel) (l : R) : kernel :=
  match k with
  | RBF _ => RBF l
  | Matern p _ => Matern p l
  end.

(** def _input_dim(X): int(X[0].get_shape()[1]) *)
Definition _input_dim (X : tensors) : M nat :=
  match X with
  | [] => raise IndexError
  | Matr c _ :: _ => ret c
  | _ :: _ => raise IndexError
  end.

(** The inner function [phi] of [build_randomRBF]. *)
Definition phi (n_features : nat) (P x : tensor) : option tensor :=
  match matmul x P with
  | None => None
  | Some XP =>
      let real := tmap cos XP in
      let imag := tmap sin XP in
      match concat1 [real; imag] with
      | None => None
      | Some cs => Some (tmap (fun v => v / sqrt (INR n_features)) cs)
      end
  end.

(** def randomFourier(n_features, kernel=None) *)
Definition build_randomRBF (n_features : nat) (kern : kernel) (X : tensors)
  : M (tensors * R) :=
  input_dim <- _input_dim X ;;
  P <- weights kern input_dim n_features ;;
  Phi <- mapM (fun x => lift (phi n_features P x)) X ;;
  let KL := 0 in
  ret (Phi, KL).

Definition randomFourier (n_features : nat) (kern : option kernel) :=
  let kern := match kern with Some k => k | None => RBF 1 end in
  build_randomRBF n_features kern.

(** ** Distributions *)

(** class _Normal *)
Record _Normal : Type := mkNormal { mu : tensor; var : tensor; sigma : tensor }.

Definition Normal_init (mu var : tensor) : _Normal :=
  mkNormal mu var (tmap sqrt var).

Definition obind {A B : Type} (o : option A) (k : A -> option B) : option B :=
  match o with
  | Some a => k a
  | None => None
  end.

Notation "x <-? o ;; k" := (obind o (fun x => k))
  (at level 61, o at next level, right associativity).

(** _Normal.sample: the reparameterisation trick *)
Definition Normal_sample (self : _Normal) : M tensor :=
  e <- tf_random_normal (get_shape (mu self)) ;;
  lift (es <-? tbin Rmult e (sigma self) ;; tbin Rplus (mu self) es).

(** _Normal.KL *)
Definition Normal_KL (self p : _Normal) : option tensor :=
  a1 <-? tbin Rminus (tmap ln (var p)) (tmap ln (var self)) ;;
  a2 <-? tbin Rdiv (var self) (var p) ;;
  a3 <-? tbin Rplus a1 a2 ;;
  let a4 := tmap (fun x => x - 1) a3 in
  d <-? tbin Rminus (mu self) (mu p) ;;
  a5 <-? tbin Rdiv (tmap (fun x => x ^ 2) d) (var p) ;;
  a6 <-? tbin Rplus a4 a5 ;;
  Some (tmap (fun x => 0.5 * x) a6).

(** class _NormPrior(_Normal): the variance is the argument itself
    unless it is to be learnt. *)
Definition NormPrior (dim : shape) (var : R) (learn_var : bool) : M _Normal :=
  let mu := zeros dim in
  var <- (if learn_var
          then v <- tf_Variable (Scal var) ;; ret (tmap pos v)
          else ret (Scal var)) ;;
  ret (Normal_init mu var).

(** class _NormPosterior(_Normal) *)
Definition NormPosterior (dim : shape) (prior_var : R) : M _Normal :=
  e1 <- tf_random_normal dim ;;
  mu <- tf_Variable (tmap (fun x => sqrt prior_var * x) e1) ;;
  e2 <- tf_random_normal dim ;;
  v <- tf_Variable (tmap (fun x => prior_var * x) e2) ;;
  let var := tmap pos v in
  ret (Normal_init mu var).

(** class _MixPosterior *)
Record _MixPosterior : Type := mkMix { comps : list _Normal; K : nat }.

Definition MixPosterior (dim : shape) (prior_var : R) (K : nat)
  : M _MixPosterior :=
  comps <- replicateM K (NormPosterior dim prior_var) ;;
  ret (mkMix comps K).

(** The loop of [_MixPosterior.sample] from index [i] on. *)
Fixpoint Mix_sample_loop (k i : nat) (z : tensor) (qs : list _Normal)
  (sample : tensor) : M tensor :=
  match qs with
  | [] => ret sample
  | qk :: qs' =>
      t <- (if (k =? i)%nat then Normal_sample qk else ret z) ;;
      sample' <- lift (tbin Rplus sample t) ;;
      Mix_sample_loop k (S i) z qs' sample'
  end.

(** _MixPosterior.sample *)
Definition Mix_sample (self : _MixPosterior) : M tensor :=
  match K self with
  | O => raise ZeroDivisionError
  | _ =>
      let logits := repeat (ln (1 / INR (K self))) (K self) in
      k <- (fun s => let (k, g) := tf_multinomial logits (gen s) in
                     Ok (k, mkState (store s) g)) ;;
      match comps self with
      | [] => raise IndexError
      | q0 :: _ =>
          let z := zeros_like (mu q0) in
          Mix_sample_loop k 0 z (comps self) z
      end
  end.

(** def _log_norm(x, mu, var) *)
Definition _log_norm (x mu var : tensor) : option R :=
  d <-? tbin Rminus x mu ;;
  q <-? tbin Rdiv (tmap (fun x => x ^ 2) d) var ;;
  s <-? tbin Rplus (tmap (fun v => ln (2 * v * PI)) var) q ;;
  Some (-0.5 * reduce_sum s).

Fixpoint omap {A B : Type} (f : A -> option B) (l : list A) : option (list B) :=
  match l with
  | [] => Some []
  | a :: l' => b <-? f a ;; bs <-? omap f l' ;; Some (b :: bs)
  end.

(** The term a component [qk] adds to the mixture bound. *)
Definition Mix_KL_term (self : _MixPosterior) (p qk : _Normal) : option R :=
  lp <-? _log_norm (mu qk) (mu p) (var p) ;;
  trt <-? tbin Rdiv (var qk) (var p) ;;
  let tr := reduce_sum trt in
  lq <-? omap (fun qj => v <-? tbin Rplus (var qk) (var qj) ;;
                         l <-? _log_norm (mu qk) (mu qj) v ;;
                         Some (l - INR (K self)))
              (comps self) ;;
  let h := reduce_logsumexp lq in
  Some ((tr / 2 - lp + h) / INR (K self)).

Fixpoint Mix_KL_loop (self : _MixPosterior) (p : _Normal)
  (qs : list _Normal) (KL : R) : option R :=
  match qs with
  | [] => Some KL
  | qk :: qs' =>
      t <-? Mix_KL_term self p qk ;;
      Mix_KL_loop self p qs' (KL + t)
  end.

(** _MixPosterior.KL *)
Definition Mix_KL (self : _MixPosterior) (p : _Normal) : option R :=
  Mix_KL_loop self p (comps self) 0.

(** The posterior of a dense layer is a normal or a mixture. *)
Inductive posterior : Type :=
| QNorm (q : _Normal)
| QMix (q : _MixPosterior).

Definition sample (q : posterior) : M tensor :=
  match q with
  | QNorm q => Normal_sample q
  | QMix q => Mix_sample q
  end.

Definition KL_to (q : posterior) (p : _Normal) : option tensor :=
  match q with
  | QNorm q => Normal_KL q p
  | QMix q => kl <-? Mix_KL q p ;; Some (Scal kl)
  end.

(** ** The variational dense layer *)

(** The priors and posteriors [build_dense] creates. *)
Definition dense_dists (output_dim : nat) (reg : R) (learn_prior : bool)
  (mixtures : nat) (input_dim : nat)
  : M (_Normal * _Normal * posterior * posterior) :=
  let Wdim := S2 input_dim output_dim in
  let bdim := S1 output_dim in
  pW <- NormPrior Wdim reg learn_prior ;;
  pb <- NormPrior bdim reg learn_prior ;;
  '(qW, qb) <- (if (1 <? mixtures)%nat
                then qW <- MixPosterior Wdim reg mixtures ;;
                     qb <- MixPosterior bdim reg mixtures ;;
                     ret (QMix qW, QMix qb)
                else qW <- NormPosterior Wdim reg ;;
                     qb <- NormPosterior bdim reg ;;
                     ret (QNorm qW, QNorm qb)) ;;
  ret (pW, pb, qW, qb).

Definition dense_KL (pW pb : _Normal) (qW qb : posterior) : option R :=
  kW <-? KL_to qW pW ;;
  kb <-? KL_to qb pb ;;
  Some (reduce_sum kW + reduce_sum kb).

(** def dense_var(output_dim, reg=1., learn_prior=True, mixtures=1) *)
Definition build_dense (output_dim : nat) (reg : R) (learn_prior : bool)
  (mixtures : nat) (X : tensors) : M (tensors * R) :=
  input_dim <- _input_dim X ;;
  '(pW, pb, qW, qb) <- dense_dists output_dim reg learn_prior mixtures
                                   input_dim ;;
  Phi <- mapM (fun x => W <- sample qW ;;
                        xW <- lift (matmul x W) ;;
                        b <- sample qb ;;
                        lift (tbin Rplus xW b)) X ;;
  KL <- lift (dense_KL pW pb qW qb) ;;
  ret (Phi, KL).


(** ** Specification-side definitions *)

(** The sub-layers of an [lmap] run in order, each on its own input and
    from the state its predecessor left, and all of them return. *)
Inductive layers_run {I O : Type}
  : list (I -> M (O * R)) -> list I -> state -> list (O * R) -> state -> Prop :=
| run_nil : forall s, layers_run [] [] s [] s
| run_cons : forall p ps X Xs s r s1 rs s2,
    p X s = Ok (r, s1) ->
    layers_run ps Xs s1 rs s2 ->
    layers_run (p :: ps) (X :: Xs) s (r :: rs) s2.

(** Successive draws of a primitive, as a pure function of the
    generator. *)
Fixpoint draws (prim : G -> R * G) (n : nat) (g : G) : list R * G :=
  match n with
  | O => ([], g)
  | S n' =>
      let (x, g1) := prim g in
      let (xs, g2) := draws prim n' g1 in
      (x :: xs, g2)
  end.

Fixpoint draw_rows (prim : G -> R * G) (r c : nat) (g : G)
  : list (list R) * G :=
  match r with
  | O => ([], g)
  | S r' =>
      let (row, g1) := draws prim c g in
      let (rows, g2) := draw_rows prim r' c g1 in
      (row :: rows, g2)
  end.

(** The random Fourier features of one input, entry by entry. *)
Definition fourier_features (n_features : nat) (P x : tensor) : tensor :=
  match x, P with
  | Matr _ m, Matr c mp =>
      Matr (c + c)
        (map (fun row =>
                map (fun v => v / sqrt (INR n_features))
                    (map cos (vecmat c row mp) ++ map sin (vecmat c row mp)))
             m)
  | _, _ => x
  end.

(** The number of entries of a tensor of a given shape. *)
Definition size (d : shape) : nat :=
  match d with
  | S0 => 1
  | S1 n => n
  | S2 r c => r * c
  end.

(** A well-formed tensor that has the given shape or is a scalar (to be
    broadcast to it). *)
Definition conf (d : shape) (t : tensor) : Prop :=
  wf t /\ (get_shape t = d \/ get_shape t = S0).

(** The entry a tensor contributes at (row-major) position [i] once
    broadcast: a scalar contributes itself everywhere. *)
Definition ix (t : tensor) (i : nat) : R :=
  match t with
  | Scal x => x
  | _ => nth i (telts t) 0
  end.

(** A diagonal Gaussian over the shape [d]. *)
Definition Normal_over (d : shape) (n : _Normal) : Prop :=
  wf (mu n) /\ wf (var n) /\ get_shape (mu n) = d /\ get_shape (var n) = d.

Definition all_pos (t : tensor) : Prop := Forall (fun x => 0 < x) (telts t).

(** The documented closed form of the KL divergence of one entry. *)
Definition kl_elem (qmu qvar pmu pvar : R) : R :=
  0.5 * (ln pvar - ln qvar + qvar / pvar - 1 + (qmu - pmu) ^ 2 / pvar).

(** The sum of [g 0 .. g (n-1)]. *)
Definition Rsum_upto (n : nat) (g : nat -> R) : R := Rsum (map g (seq 0 n)).

(** A variance obtained by applying [pos] to a Variable of the store. *)
Definition routed (st : list tensor) (t : tensor) : Prop :=
  exists v, In v st /\ t = tmap pos v.

(** The normal components of a posterior. *)
Definition post_comps (q : posterior) : list _Normal :=
  match q with
  | QNorm n => [n]
  | QMix m => comps m
  end.

(** The number of Variables one [build_dense] creates. *)
Definition nvars (learn_prior : bool) (mixtures : nat) : nat :=
  (if learn_prior then 2 else 0)
  + (if (1 <? mixtures)%nat then 2 * mixtures + 2 * mixtures else 4).

(** The mixture bound as documented: the overlap log-densities are
    shifted by [log K], and the per-component values
    [trace/2 - log_prior_density + logsumexp_term] are averaged over the
    [K] components. *)
Definition Mix_KL_term_documented (self : _MixPosterior) (p qk : _Normal)
  : option R :=
  lp <-? _log_norm (mu qk) (mu p) (var p) ;;
  trt <-? tbin Rdiv (var qk) (var p) ;;
  let tr := reduce_sum trt in
  lq <-? omap (fun qj => v <-? tbin Rplus (var qk) (var qj) ;;
                         l <-? _log_norm (mu qk) (mu qj) v ;;
                         Some (l - ln (INR (K self))))
              (comps self) ;;
  let h := reduce_logsumexp lq in
  Some (tr / 2 - lp + h).

Definition Mix_KL_documented (self : _MixPosterior) (p : _Normal) : option R :=
  ts <-? omap (Mix_KL_term_documented self p) (comps self) ;;
  Some (Rsum ts / INR (K self)).

(** The overlap log-densities of a component with all components. *)
Definition overlaps (self : _MixPosterior) (qk : _Normal) : option (list R) :=
  omap (fun qj => v <-? tbin Rplus (var qk) (var qj) ;;
                  _log_norm (mu qk) (mu qj) v)
       (comps self).

(** Python's [zip( *Xs )]: the i-th elements of all the lists, for every
    position the shortest list has. *)
Fixpoint zip_star {A : Type} (Xs : list (list A)) : list (list A) :=
  match Xs with
  | [] => []
  | X :: rest =>
      match rest with
      | [] => map (fun x => [x]) X
      | _ => zipWith cons X (zip_star rest)
      end
  end.

(** Concatenation as documented: sample by sample, across the inputs. *)
Definition cat_documented (Xs : list tensors) : M (tensors * R) :=
  Phi <- mapM (fun X => lift (concat1 X)) (zip_star Xs) ;;
  ret (Phi, 0).

(** ** Basic facts *)

Lemma fold_left_Rplus (l : list R) (a : R) :
  fold_left Rplus l a = a + Rsum l.
Proof.
  revert a; induction l as [|x l IH]; intros a; simpl.
  - unfold Rsum; simpl; lra.
  - rewrite IH. unfold Rsum; simpl; lra.
Qed.

Lemma layers_run_length {I O : Type} (ps : list (I -> M (O * R))) Xs s rs s' :
  layers_run ps Xs s rs s' ->
  length Xs = length ps /\ length rs = length ps.
Proof.
  induction 1; simpl; intuition congruence.
Qed.

Lemma layers_run_mapM {I O : Type} (ps : list (I -> M (O * R))) Xs s rs s' :
  layers_run ps Xs s rs s' ->
  mapM (fun pX : (I -> M (O * R)) * I => fst pX (snd pX)) (combine ps Xs) s
  = Ok (rs, s').
Proof.
  induction 1 as [s|p ps X Xs s r s1 rs s2 Hp Hrun IH]; simpl.
  - reflexivity.
  - unfold bind at 1; simpl. rewrite Hp.
    unfold bind at 1. rewrite IH. reflexivity.
Qed.

Lemma draws_length prim n g : length (fst (draws prim n g)) = n.
Proof.
  revert g; induction n as [|n IH]; intros g; simpl; [reflexivity|].
  destruct (prim g) as [x g1]. specialize (IH g1).
  destruct (draws prim n g1) as [xs g2]. simpl in *. congruence.
Qed.

Lemma draw_rows_length prim r c g :
  length (fst (draw_rows prim r c g)) = r /\
  Forall (fun row => length row = c) (fst (draw_rows prim r c g)).
Proof.
  revert g; induction r as [|r IH]; intros g; simpl; [split; auto|].
  pose proof (draws_length prim c g) as Hc.
  destruct (draws prim c g) as [row g1]. specialize (IH g1).
  destruct (draw_rows prim r c g1) as [rows g2]. simpl in *.
  destruct IH as [IH1 IH2]. split; [congruence|]. constructor; auto.
Qed.

Lemma replicateM_draw prim n s :
  replicateM n (draw prim) s
  = Ok (fst (draws prim n (gen s)),
        mkState (store s) (snd (draws prim n (gen s)))).
Proof.
  revert s; induction n as [|n IH]; intros s; simpl.
  - destruct s; reflexivity.
  - unfold bind at 1, draw at 1.
    destruct (prim (gen s)) as [x g1].
    unfold bind at 1. rewrite IH. simpl.
    destruct (draws prim n g1) as [xs g2]. reflexivity.
Qed.

Lemma replicateM_rows prim r c s :
  replicateM r (replicateM c (draw prim)) s
  = Ok (fst (draw_rows prim r c (gen s)),
        mkState (store s) (snd (draw_rows prim r c (gen s)))).
Proof.
  revert s; induction r as [|r IH]; intros s; simpl.
  - destruct s; reflexivity.
  - unfold bind at 1. rewrite replicateM_draw.
    unfold bind at 1. rewrite IH. cbn [gen store].
    destruct (draws prim c (gen s)) as [row g1]. cbn [fst snd].
    destruct (draw_rows prim r c g1) as [rows g2]. reflexivity.
Qed.

Lemma random_matrix prim r c s :
  random_tensor prim (S2 r c) s
  = Ok (Matr c (fst (draw_rows prim r c (gen s))),
        mkState (store s) (snd (draw_rows prim r c (gen s)))).
Proof.
  unfold random_tensor, bind. rewrite replicateM_rows. reflexivity.
Qed.

Lemma random_vector prim n s :
  random_tensor prim (S1 n) s
  = Ok (Vect (fst (draws prim n (gen s))),
        mkState (store s) (snd (draws prim n (gen s)))).
Proof.
  unfold random_tensor, bind. rewrite replicateM_draw. reflexivity.
Qed.

Lemma bdim_refl n : bdim n n = Some n.
Proof. unfold bdim. rewrite Nat.eqb_refl. reflexivity. Qed.

Lemma bcast_same_length {A B : Type} (f : A -> A -> B) u v :
  length u = length v -> bcast f u v = zipWith f u v.
Proof.
  intros H. unfold bcast. rewrite H, Nat.eqb_refl. reflexivity.
Qed.

Lemma zipWith_map_r {A B B' C : Type} (f : A -> B -> C) (g : B' -> B) u v :
  zipWith f u (map g v) = zipWith (fun a b => f a (g b)) u v.
Proof.
  revert v; induction u as [|a u IH]; intros [|b v]; simpl; auto.
  now rewrite IH.
Qed.

Lemma map_zipWith {A B C D : Type} (h : C -> D) (f : A -> B -> C) u v :
  map h (zipWith f u v) = zipWith (fun a b => h (f a b)) u v.
Proof.
  revert v; induction u as [|a u IH]; intros [|b v]; simpl; auto.
  now rewrite IH.
Qed.

Lemma zipWith_app_map {A B : Type} (f g : A -> list B) l :
  zipWith (@app B) (map f l) (map g l) = map (fun a => f a ++ g a) l.
Proof.
  induction l as [|a l IH]; simpl; auto. now rewrite IH.
Qed.

Lemma zipWith_length {A B C : Type} (f : A -> B -> C) u v :
  length u = length v -> length (zipWith f u v) = length u.
Proof.
  revert v; induction u as [|a u IH]; intros [|b v]; simpl; intros H;
    try discriminate; auto.
Qed.

(** ** Identity and activation layers *)

(** C10: the build function of [activation()] with its default argument
    agrees with that of [eye()] on every input list: both return the
    input list itself, element by element and in order, and a KL of 0. *)
Theorem activation_default_is_eye (X : tensors) (s : state) :
  activation_default X s = eye X s /\ eye X s = Ok ((X, 0), s).
Proof.
  unfold activation_default, activation, build_activation, eye, build_eye, ret.
  rewrite map_id. split; reflexivity.
Qed.

(** ** lmap *)

Lemma build_lmap_mismatch {I O : Type} (layers : list (I -> M (O * R))) Xs s :
  length Xs <> length layers ->
  build_lmap layers Xs s
  = Raise (ValueError "Number of layers and inputs not the same!").
Proof.
  intros H. unfold build_lmap.
  apply Nat.eqb_neq in H. rewrite H. reflexivity.
Qed.

(** X15: a sub-layer that raises, after its predecessors returned, makes
    the whole [lmap] raise the same exception, whatever the layers and
    inputs after it. *)
Lemma build_lmap_propagates {I O : Type} (ps qs : list (I -> M (O * R)))
  p Xs X Ys s rs s1 e :
  layers_run ps Xs s rs s1 ->
  p X s1 = Raise e ->
  length Ys = length qs ->
  build_lmap (ps ++ p :: qs) (Xs ++ X :: Ys) s = Raise e.
Proof.
  intros Hrun Hp Hlen. unfold build_lmap.
  destruct (layers_run_length Hrun) as [HX _].
  rewrite !length_app. simpl. rewrite HX, Hlen, Nat.eqb_refl. simpl.
  unfold bind.
  assert (Hm : mapM (fun pX : (I -> M (O * R)) * I => fst pX (snd pX))
                 (combine (ps ++ p :: qs) (Xs ++ X :: Ys)) s = Raise e).
  { clear HX. induction Hrun as [s|p0 ps0 X0 Xs0 s r s1 rs s2 Hp0 Hrun IH]; simpl.
    - unfold bind. rewrite Hp. reflexivity.
    - unfold bind at 1. simpl. rewrite Hp0. unfold bind at 1.
      rewrite (IH Hp). reflexivity. }
  rewrite Hm. reflexivity.
Qed.

(** C7 (amended): when the number of inputs differs from the number of
    layers, [build_lmap] raises the length-mismatch [ValueError]; when
    there is at least one layer and the sub-layers, run in order on the
    paired inputs (so the lengths match), all return, it returns their
    outputs in layer order together with the sum of their KL terms. *)
Theorem build_lmap_spec {I O : Type} (layers : list (I -> M (O * R)))
  (Xs : list I) (s : state) :
  (length Xs <> length layers ->
   build_lmap layers Xs s
   = Raise (ValueError "Number of layers and inputs not the same!")) /\
  (forall rs s',
     layers <> [] ->
     layers_run layers Xs s rs s' ->
     build_lmap layers Xs s = Ok ((map fst rs, Rsum (map snd rs)), s')).
Proof.
  split; [apply build_lmap_mismatch|].
  intros rs s' Hne Hrun.
  destruct (layers_run_length Hrun) as [HX Hrs].
  unfold build_lmap. rewrite HX, Nat.eqb_refl. simpl.
  unfold bind. rewrite (layers_run_mapM Hrun).
  destruct rs as [|r rs].
  - destruct layers; [congruence|discriminate].
  - unfold ret. rewrite fold_left_Rplus. do 3 f_equal. lra.
Qed.

(** ** cat *)

Lemma mapM_lift_length {A B : Type} (f : A -> option B) l s r s' :
  mapM (fun a => lift (f a)) l s = Ok (r, s') ->
  length r = length l /\ s' = s.
Proof.
  revert r; induction l as [|a l IH]; simpl; intros r.
  - unfold ret. intros H; inversion H; auto.
  - unfold bind at 1. destruct (f a) as [b|]; simpl; [|discriminate].
    unfold bind at 1.
    destruct (mapM (fun a0 => lift (f a0)) l s) as [[bs s1]|] eqn:E; [|discriminate].
    unfold ret. intros H; inversion H; subst. simpl.
    destruct (IH bs eq_refl) as [-> ->]. auto.
Qed.

(** [build_cat] returns one tensor per element of the outer list. *)
Lemma build_cat_length Xs s Phi kl s' :
  build_cat Xs s = Ok ((Phi, kl), s') ->
  length Phi = length Xs /\ kl = 0.
Proof.
  unfold build_cat, bind.
  destruct (mapM (fun X => lift (concat1 X)) Xs s) as [[r s1]|] eqn:E; [|discriminate].
  unfold ret. intros H; inversion H; subst.
  apply mapM_lift_length in E. tauto.
Qed.

(** ** Kernels *)

Lemma RBF_weights_eq lenscale input_dim n_features s :
  RBF_weights lenscale input_dim n_features s
  = Ok (Matr n_features
          (map (map (fun x => x / lenscale))
               (fst (draw_rows np_randn input_dim n_features (gen s)))),
        mkState (store s)
                (snd (draw_rows np_randn input_dim n_features (gen s)))).
Proof.
  unfold RBF_weights, np_random_randn, bind.
  rewrite random_matrix. reflexivity.
Qed.

Lemma df_positive (p : Z) : (0 <= p)%Z -> 0 < 2 * (IZR p + 0.5).
Proof. intros Hp. apply IZR_le in Hp. lra. Qed.

Lemma df_not_positive (p : Z) : (p < 0)%Z -> 2 * (IZR p + 0.5) <= 0.
Proof.
  intros Hp. assert (H : (p <= -1)%Z) by lia. apply IZR_le in H. lra.
Qed.

Lemma Matern_weights_eq p lenscale input_dim n_features s :
  (0 <= p)%Z ->
  let df := 2 * (IZR p + 0.5) in
  let y := draw_rows np_randn input_dim n_features (gen s) in
  let u := draws (np_chisquare df) n_features (snd y) in
  Matern_weights p lenscale input_dim n_features s
  = Ok (Matr n_features
          (map (fun row =>
                  zipWith (fun yij uj => yij * sqrt (df / uj) / lenscale)
                          row (fst u))
               (fst y)),
        mkState (store s) (snd u)).
Proof.
  intros Hp df y u. pose proof (df_positive Hp) as Hdf. fold df in Hdf.
  unfold Matern_weights, np_random_randn, np_random_chisquare.
  fold df. unfold bind at 1. rewrite random_matrix. fold y.
  destruct (Rle_dec df 0) as [Hle|_]; [lra|].
  unfold bind at 1. rewrite random_vector. cbn [gen store]. fold u.
  unfold bind at 1. cbn [tbin tmap]. rewrite !length_map.
  pose proof (draws_length (np_chisquare df) n_features (snd y)) as Hu.
  fold u in Hu. rewrite Hu, bdim_refl. cbn [lift]. unfold ret at 1.
  unfold ret. cbn [tmap]. do 3 f_equal.
  rewrite map_map. apply map_ext_in. intros row Hrow.
  destruct (draw_rows_length np_randn input_dim n_features (gen s)) as [_ Hy].
  fold y in Hy. rewrite Forall_forall in Hy.
  rewrite bcast_same_length by (rewrite !length_map, Hu; auto).
  rewrite !zipWith_map_r, map_zipWith. reflexivity.
Qed.

Lemma Matern_weights_raises p lenscale input_dim n_features s :
  (p < 0)%Z ->
  Matern_weights p lenscale input_dim n_features s
  = Raise (ValueError "df <= 0").
Proof.
  intros Hp. pose proof (df_not_positive Hp) as Hdf.
  unfold Matern_weights, np_random_randn, np_random_chisquare.
  unfold bind at 1. rewrite random_matrix.
  destruct (Rle_dec (2 * (IZR p + 0.5)) 0) as [_|Hn]; [|contradiction].
  reflexivity.
Qed.

(** C9 (amended): [Matern.weights] sets [df = 2*(p+0.5)] and draws the
    matrix [y] of shape (input_dim, n_features) from the normal generator;
    for an integer [p >= 0] it then draws one chi-square variate [u_j] of
    [df] degrees of freedom per feature and returns the matrix of entries
    [y_ij * sqrt(df/u_j) / lenscale]; for [p < 0] the chi-square generator
    refuses [df <= 0] and the call raises [ValueError].  [RBF.weights]
    returns the (input_dim x n_features) matrix of normal draws divided by
    [lenscale]; nothing is cached: a second invocation is made of the
    draws that follow those of the first. *)
Theorem kernel_weights_spec (p : Z) (lenscale : R) (input_dim n_features : nat)
  (s : state) :
  let df := 2 * (IZR p + 0.5) in
  let y := draw_rows np_randn input_dim n_features (gen s) in
  let u := draws (np_chisquare df) n_features (snd y) in
  let y' := draw_rows np_randn input_dim n_features (snd y) in
  (length (fst y) = input_dim /\
   Forall (fun row => length row = n_features) (fst y) /\
   length (fst u) = n_features) /\
  ((0 <= p)%Z ->
   Matern_weights p lenscale input_dim n_features s
   = Ok (Matr n_features
           (map (fun row =>
                   zipWith (fun yij uj => yij * sqrt (df / uj) / lenscale)
                           row (fst u))
                (fst y)),
         mkState (store s) (snd u))) /\
  ((p < 0)%Z ->
   Matern_weights p lenscale input_dim n_features s
   = Raise (ValueError "df <= 0")) /\
  RBF_weights lenscale input_dim n_features s
  = Ok (Matr n_features (map (map (fun x => x / lenscale)) (fst y)),
        mkState (store s) (snd y)) /\
  (P1 <- RBF_weights lenscale input_dim n_features ;;
   P2 <- RBF_weights lenscale input_dim n_features ;;
   ret (P1, P2)) s
  = Ok ((Matr n_features (map (map (fun x => x / lenscale)) (fst y)),
         Matr n_features (map (map (fun x => x / lenscale)) (fst y'))),
        mkState (store s) (snd y')).
Proof.
  intros df y u y'.
  destruct (draw_rows_length np_randn input_dim n_features (gen s)) as [Hy1 Hy2].
  split; [|split; [|split; [|split]]].
  - repeat split; auto. apply draws_length.
  - intros Hp. now apply Matern_weights_eq.
  - intros Hp. now apply Matern_weights_raises.
  - apply RBF_weights_eq.
  - unfold bind at 1. rewrite RBF_weights_eq.
    unfold bind at 1. rewrite RBF_weights_eq. reflexivity.
Qed.

Lemma kernel_ok_Matern p l : kernel_ok (Matern p l) = true -> (0 <= p)%Z.
Proof. simpl. apply Z.leb_le. Qed.

Lemma weights_returns kern c n s :
  kernel_ok kern = true ->
  exists mp s1,
    weights kern c n s = Ok (Matr n mp, s1) /\ length mp = c.
Proof.
  intros Hk. destruct kern as [l|p l]; cbn [weights].
  - rewrite RBF_weights_eq. do 2 eexists. split; [reflexivity|].
    rewrite length_map. apply draw_rows_length.
  - rewrite Matern_weights_eq by now apply kernel_ok_Matern in Hk.
    do 2 eexists. split; [reflexivity|].
    rewrite length_map. apply draw_rows_length.
Qed.

Lemma weights_raises kern c n s :
  kernel_ok kern = false ->
  weights kern c n s = Raise (ValueError "df <= 0").
Proof.
  destruct kern as [l|p l]; simpl; [discriminate|].
  intros Hk. apply Z.leb_gt in Hk. now apply Matern_weights_raises.
Qed.

(** ** Random Fourier features *)

Lemma phi_matrix n c mp m :
  phi n (Matr c mp) (Matr (length mp) m)
  = Some (fourier_features n (Matr c mp) (Matr (length mp) m)).
Proof.
  unfold phi, matmul. rewrite Nat.eqb_refl.
  cbn [tmap concat1]. rewrite !length_map, Nat.eqb_refl.
  cbn [tmap fourier_features]. do 2 f_equal.
  rewrite !map_map, zipWith_app_map, map_map.
  apply map_ext. intros row. reflexivity.
Qed.

Lemma mapM_phi n c mp (X : tensors) s :
  Forall (fun x => exists m, x = Matr (length mp) m) X ->
  mapM (fun x => lift (phi n (Matr c mp) x)) X s
  = Ok (map (fourier_features n (Matr c mp)) X, s).
Proof.
  induction 1 as [|x X [m ->] HX IH]; simpl; [reflexivity|].
  unfold bind at 1. rewrite phi_matrix. cbn [lift]. unfold ret at 1.
  unfold bind at 1. rewrite IH. reflexivity.
Qed.

Lemma build_randomRBF_eq n_features kern (X : tensors) s c mp s1 :
  X <> [] ->
  Forall (fun x => exists m, x = Matr c m) X ->
  weights kern c n_features s = Ok (Matr n_features mp, s1) ->
  length mp = c ->
  build_randomRBF n_features kern X s
  = Ok ((map (fourier_features n_features (Matr n_features mp)) X, 0), s1).
Proof.
  intros Hne HX Hw Hlen.
  destruct X as [|x X]; [congruence|].
  pose proof (Forall_inv HX) as [m ->].
  unfold build_randomRBF. cbn [_input_dim]. unfold bind at 1, ret at 1.
  unfold bind at 1. rewrite Hw.
  unfold bind at 1. subst c. rewrite mapM_phi by exact HX.
  reflexivity.
Qed.

(** C8 (amended): with a kernel whose weights return ([RBF], or [Matern]
    with [p >= 0]), on a non-empty list of matrices that all have the
    feature dimension [c] of the first one, an invocation of
    [build_randomRBF] calls [kernel.weights] once (the state it returns is
    the one that single call leaves), and every output is the random
    Fourier feature map of the corresponding input under that one matrix
    [P]: the cosines and sines of [xP] side by side, divided by
    [sqrt n_features]; the KL term is 0.  [P] belongs to the invocation,
    not to the build function: a second invocation of the same build
    function calls [kernel.weights] again, from the generator state the
    first one left, and maps its inputs under the matrix [P'] of that
    second call. *)
Theorem build_randomRBF_spec (n_features : nat) (kern : kernel) (X : tensors)
  (s : state) (c : nat) :
  kernel_ok kern = true ->
  X <> [] ->
  Forall (fun x => exists m, x = Matr c m) X ->
  exists P s1 P' s2,
    weights kern c n_features s = Ok (P, s1) /\
    get_shape P = S2 c n_features /\
    build_randomRBF n_features kern X s
    = Ok ((map (fourier_features n_features P) X, 0), s1) /\
    weights kern c n_features s1 = Ok (P', s2) /\
    (r1 <- build_randomRBF n_features kern X ;;
     r2 <- build_randomRBF n_features kern X ;;
     ret (r1, r2)) s
    = Ok (((map (fourier_features n_features P) X, 0),
           (map (fourier_features n_features P') X, 0)), s2).
Proof.
  intros Hk Hne HX.
  destruct (weights_returns kern c n_features s Hk) as (mp & s1 & Hw & Hlen).
  destruct (weights_returns kern c n_features s1 Hk)
    as (mp' & s2 & Hw' & Hlen').
  pose proof (@build_randomRBF_eq _ kern _ s _ _ _ Hne HX Hw Hlen) as E1.
  pose proof (@build_randomRBF_eq _ kern _ s1 _ _ _ Hne HX Hw' Hlen') as E2.
  exists (Matr n_features mp), s1, (Matr n_features mp'), s2.
  split; [exact Hw|]. split; [simpl; now rewrite Hlen|].
  split; [exact E1|]. split; [exact Hw'|].
  unfold bind at 1. rewrite E1. unfold bind at 1. rewrite E2. reflexivity.
Qed.

(** ** Elementwise tensor operations *)

Lemma tmap_shape f t : get_shape (tmap f t) = get_shape t.
Proof. destruct t; simpl; now rewrite ?length_map. Qed.

Lemma tmap_wf f t : wf t -> wf (tmap f t).
Proof.
  destruct t as [x|v|c m]; simpl; auto.
  intros H. rewrite Forall_map. eapply Forall_impl; [|exact H].
  intros row Hrow. simpl in *. now rewrite length_map.
Qed.

Lemma tmap_telts f t : telts (tmap f t) = map f (telts t).
Proof.
  destruct t as [x|v|c m]; simpl; auto. now rewrite concat_map.
Qed.

Lemma telts_length d t : wf t -> get_shape t = d -> length (telts t) = size d.
Proof.
  destruct t as [x|v|c m]; simpl; intros Hwf <-; simpl; auto.
  induction Hwf as [|row m Hrow Hm IH]; simpl; auto.
  rewrite length_app, IH, Hrow. reflexivity.
Qed.

Lemma nth_map0 (f : R -> R) l i :
  (i < length l)%nat -> nth i (map f l) 0 = f (nth i l 0).
Proof.
  intros H. rewrite (nth_indep _ 0 (f 0)) by now rewrite length_map.
  apply map_nth.
Qed.

Lemma nth_zipWith (f : R -> R -> R) u v i :
  length u = length v -> (i < length u)%nat ->
  nth i (zipWith f u v) 0 = f (nth i u 0) (nth i v 0).
Proof.
  revert v i; induction u as [|a u IH]; intros [|b v] i Hl Hi;
    simpl in *; try lia; try discriminate.
  destruct i as [|i]; auto. apply IH; [congruence|lia].
Qed.

Lemma zipWith_app {A B C : Type} (f : A -> B -> C) u1 u2 v1 v2 :
  length u1 = length v1 ->
  zipWith f (u1 ++ u2) (v1 ++ v2) = zipWith f u1 v1 ++ zipWith f u2 v2.
Proof.
  revert v1; induction u1 as [|a u1 IH]; intros [|b v1] H; simpl in *;
    try discriminate; auto.
  f_equal. apply IH. congruence.
Qed.

Lemma concat_zipWith_rows (f : R -> R -> R) c m1 m2 :
  Forall (fun row => length row = c) m1 ->
  Forall (fun row => length row = c) m2 ->
  length m1 = length m2 ->
  concat (zipWith (bcast f) m1 m2) = zipWith f (concat m1) (concat m2) /\
  Forall (fun row => length row = c) (zipWith (bcast f) m1 m2).
Proof.
  intros H1; revert m2; induction H1 as [|r1 m1 Hr1 Hm1 IH];
    intros m2 H2 Hl; destruct m2 as [|r2 m2]; simpl in *;
    try discriminate; auto.
  inversion H2 as [|? ? Hr2 Hm2]; subst.
  destruct (IH m2 Hm2) as [IHa IHb]; [congruence|].
  rewrite bcast_same_length by congruence.
  rewrite zipWith_app by congruence. rewrite IHa. split; auto.
  constructor; auto. rewrite zipWith_length; congruence.
Qed.

Lemma ix_tmap d f t i :
  conf d t -> (i < size d)%nat -> ix (tmap f t) i = f (ix t i).
Proof.
  intros [Hwf Hs] Hi. destruct t as [x|v|c m]; auto.
  - destruct Hs as [Hs|Hs]; [|discriminate].
    unfold ix. rewrite tmap_telts.
    apply nth_map0. rewrite (@telts_length d _ Hwf Hs). exact Hi.
  - destruct Hs as [Hs|Hs]; [|discriminate].
    unfold ix. cbn [tmap]. fold (tmap f (Matr c m)). rewrite tmap_telts.
    apply nth_map0. rewrite (@telts_length d _ Hwf Hs). exact Hi.
Qed.

Lemma conf_tmap d f t : conf d t -> conf d (tmap f t).
Proof.
  intros [Hwf Hs]. split; [now apply tmap_wf|]. now rewrite tmap_shape.
Qed.

Lemma tbin_scal_r f a y : tbin f a (Scal y) = Some (tmap (fun x => f x y) a).
Proof. destruct a; reflexivity. Qed.

(** Two conforming tensors combine entry by entry. *)
Lemma tbin_conf (f : R -> R -> R) d a b :
  conf d a -> conf d b ->
  exists t,
    tbin f a b = Some t /\ conf d t /\
    (get_shape a = d \/ get_shape b = d -> get_shape t = d) /\
    forall i, (i < size d)%nat -> ix t i = f (ix a i) (ix b i).
Proof.
  intros Ha Hb.
  destruct a as [x|u|c1 m1].
  - (* scalar on the left *)
    exists (tmap (f x) b). split; [reflexivity|].
    split; [now apply conf_tmap|]. split.
    + rewrite tmap_shape. intros [H|H]; auto. simpl in H.
      destruct Hb as [_ [Hb|Hb]]; congruence.
    + intros i Hi. now rewrite (@ix_tmap d _ _ i Hb Hi).
  - destruct b as [y|v|c2 m2].
    + exists (tmap (fun x => f x y) (Vect u)). split; [reflexivity|].
      split; [now apply conf_tmap|]. split.
      * rewrite tmap_shape. intros [H|H]; auto. simpl in H.
        destruct Ha as [_ [Ha|Ha]]; congruence.
      * intros i Hi. now rewrite (@ix_tmap d _ _ i Ha Hi).
    + destruct Ha as [_ [Ha|Ha]]; [|discriminate].
      destruct Hb as [_ [Hb|Hb]]; [|discriminate].
      simpl in Ha, Hb. subst d. injection Hb as Hb.
      exists (Vect (zipWith f u v)). cbn [tbin]. rewrite Hb, bdim_refl.
      rewrite bcast_same_length by auto. split; [reflexivity|].
      split; [|split].
      * split; simpl; auto. left. now rewrite zipWith_length.
      * intros _. simpl. now rewrite zipWith_length.
      * intros i Hi. simpl in *. apply nth_zipWith; auto.
    + exfalso. destruct Ha as [_ [Ha|Ha]]; [|discriminate].
      destruct Hb as [_ [Hb|Hb]]; [|discriminate].
      simpl in *. congruence.
  - destruct b as [y|v|c2 m2].
    + exists (tmap (fun x => f x y) (Matr c1 m1)). split; [reflexivity|].
      split; [now apply conf_tmap|]. split.
      * rewrite tmap_shape. intros [H|H]; auto. simpl in H.
        destruct Ha as [_ [Ha|Ha]]; congruence.
      * intros i Hi. now rewrite (@ix_tmap d _ _ i Ha Hi).
    + exfalso. destruct Ha as [_ [Ha|Ha]]; [|discriminate].
      destruct Hb as [_ [Hb|Hb]]; [|discriminate].
      simpl in *. congruence.
    + destruct Ha as [Hwa [Ha|Ha]]; [|discriminate].
      destruct Hb as [Hwb [Hb|Hb]]; [|discriminate].
      simpl in Ha, Hb, Hwa, Hwb. subst d. injection Hb as Hr Hc. subst c2.
      destruct (@concat_zipWith_rows f c1 m1 m2 Hwa Hwb (eq_sym Hr))
        as [Hcat Hrows].
      exists (Matr c1 (zipWith (bcast f) m1 m2)). cbn [tbin].
      rewrite Hr, !bdim_refl.
      rewrite (bcast_same_length (bcast f)) by auto.
      split; [reflexivity|]. split; [|split].
      * split; simpl; auto. left. rewrite zipWith_length; congruence.
      * intros _. simpl. rewrite zipWith_length; congruence.
      * intros i Hi. unfold ix. cbn [telts]. rewrite Hcat.
        assert (Hl1 : length (concat m1) = (length m1 * c1)%nat)
          by (apply (@telts_length (S2 (length m1) c1) (Matr c1 m1)); auto).
        assert (Hl2 : length (concat m2) = (length m1 * c1)%nat).
        { rewrite <- Hr.
          apply (@telts_length (S2 (length m2) c1) (Matr c1 m2)); auto. }
        apply nth_zipWith; [congruence|]. simpl in Hi. lia.
Qed.

(** ** Sums *)

Lemma list_as_map_nth (l : list R) :
  l = map (fun i => nth i l 0) (seq 0 (length l)).
Proof.
  induction l as [|a l IH]; simpl; auto.
  f_equal. rewrite <- seq_shift, map_map. exact IH.
Qed.

Lemma Rsum_upto_ext n g h :
  (forall i, (i < n)%nat -> g i = h i) -> Rsum_upto n g = Rsum_upto n h.
Proof.
  intros H. unfold Rsum_upto. f_equal. apply map_ext_in.
  intros i Hi. apply in_seq in Hi. apply H. lia.
Qed.

Lemma Rsum_nonneg l : Forall (fun x => 0 <= x) l -> 0 <= Rsum l.
Proof.
  induction 1 as [|x l Hx Hl IH]; unfold Rsum in *; simpl; lra.
Qed.

Lemma Rsum_zero l : Forall (fun x => x = 0) l -> Rsum l = 0.
Proof.
  induction 1 as [|x l Hx Hl IH]; unfold Rsum in *; simpl; lra.
Qed.

Lemma Rsum_upto_nonneg n g :
  (forall i, (i < n)%nat -> 0 <= g i) -> 0 <= Rsum_upto n g.
Proof.
  intros H. apply Rsum_nonneg. rewrite Forall_map, Forall_forall.
  intros i Hi. apply in_seq in Hi. apply H. lia.
Qed.

Lemma Rsum_upto_zero n g :
  (forall i, (i < n)%nat -> g i = 0) -> Rsum_upto n g = 0.
Proof.
  intros H. apply Rsum_zero. rewrite Forall_map, Forall_forall.
  intros i Hi. apply in_seq in Hi. apply H. lia.
Qed.

Lemma reduce_sum_upto d t :
  wf t -> get_shape t = d -> reduce_sum t = Rsum_upto (size d) (ix t).
Proof.
  intros Hwf Hs. unfold reduce_sum, Rsum_upto.
  rewrite <- (@telts_length d t Hwf Hs).
  rewrite (list_as_map_nth (telts t)) at 1. f_equal.
  destruct t; auto.
Qed.

Lemma all_pos_ix d t i :
  wf t -> get_shape t = d -> all_pos t -> (i < size d)%nat -> 0 < ix t i.
Proof.
  intros Hwf Hs Hp Hi. unfold all_pos in Hp. rewrite Forall_forall in Hp.
  apply Hp. rewrite <- (@telts_length d t Hwf Hs) in Hi.
  destruct t as [x|v|c m]; unfold ix.
  - simpl. auto.
  - now apply nth_In.
  - now apply nth_In.
Qed.

(** ** The KL divergence between diagonal Gaussians *)

Lemma Normal_KL_conf d q p :
  conf d (mu q) -> conf d (var q) -> conf d (mu p) -> conf d (var p) ->
  exists t,
    Normal_KL q p = Some t /\ conf d t /\
    (get_shape (var q) = d -> get_shape t = d) /\
    forall i, (i < size d)%nat ->
      ix t i = kl_elem (ix (mu q) i) (ix (var q) i) (ix (mu p) i) (ix (var p) i).
Proof.
  intros Hqm Hqv Hpm Hpv. unfold Normal_KL.
  destruct (@tbin_conf Rminus d (tmap ln (var p)) (tmap ln (var q)))
    as (a1 & E1 & C1 & _ & I1); try now apply conf_tmap.
  destruct (@tbin_conf Rdiv d (var q) (var p)) as (a2 & E2 & C2 & S2' & I2);
    auto.
  destruct (@tbin_conf Rplus d a1 a2) as (a3 & E3 & C3 & S3 & I3); auto.
  destruct (@tbin_conf Rminus d (mu q) (mu p)) as (dd & E4 & C4 & _ & I4); auto.
  destruct (@tbin_conf Rdiv d (tmap (fun x => x ^ 2) dd) (var p))
    as (a5 & E5 & C5 & _ & I5); auto; try now apply conf_tmap.
  destruct (@tbin_conf Rplus d (tmap (fun x => x - 1) a3) a5)
    as (a6 & E6 & C6 & S6 & I6); auto; try now apply conf_tmap.
  rewrite E1; cbn [obind]. rewrite E2; cbn [obind]. rewrite E3; cbn [obind].
  rewrite E4; cbn [obind]. rewrite E5; cbn [obind]. rewrite E6; cbn [obind].
  eexists. split; [reflexivity|]. split; [now apply conf_tmap|]. split.
  - intros Hs. rewrite tmap_shape. apply S6. left. rewrite tmap_shape.
    apply S3. right. apply S2'. now left.
  - intros i Hi.
    rewrite (@ix_tmap d _ a6 i C6 Hi), (I6 i Hi), (I5 i Hi).
    rewrite (@ix_tmap d _ a3 i C3 Hi), (I3 i Hi), (I1 i Hi), (I2 i Hi).
    rewrite (@ix_tmap d _ dd i C4 Hi), (I4 i Hi).
    rewrite (@ix_tmap d _ (var p) i Hpv Hi), (@ix_tmap d _ (var q) i Hqv Hi).
    unfold kl_elem, Rminus, Rdiv. reflexivity.
Qed.

Lemma Normal_over_conf d n :
  Normal_over d n -> conf d (mu n) /\ conf d (var n).
Proof. intros (H1 & H2 & H3 & H4). unfold conf. auto. Qed.

Lemma kl_elem_nonneg qm qv pm pv :
  0 < qv -> 0 < pv -> 0 <= kl_elem qm qv pm pv.
Proof.
  intros Hq Hp. unfold kl_elem.
  assert (Hx : 0 < qv / pv) by (apply Rdiv_lt_0_compat; auto).
  pose proof (exp_ineq1_le (ln (qv / pv))) as H.
  rewrite exp_ln in H by exact Hx.
  unfold Rdiv in H at 1. rewrite ln_mult in H by (auto using Rinv_0_lt_compat).
  rewrite ln_Rinv in H by exact Hp.
  assert (Hsq : 0 <= (qm - pm) ^ 2 / pv).
  { apply Rmult_le_pos; [apply pow2_ge_0|].
    left. now apply Rinv_0_lt_compat. }
  lra.
Qed.

Lemma kl_elem_same m v : 0 < v -> kl_elem m v m v = 0.
Proof.
  intros Hv. unfold kl_elem. field_simplify_eq; [|lra]. ring.
Qed.

(** C6: for a posterior [q] and a prior [p] over the same shape with
    strictly positive variances, [_Normal.KL] returns a tensor whose sum
    is non-negative, and the sum is 0 when [q.mu = p.mu] and
    [q.var = p.var]. *)
Theorem Normal_KL_nonneg (d : shape) (q p : _Normal) :
  Normal_over d q -> Normal_over d p ->
  all_pos (var q) -> all_pos (var p) ->
  exists t,
    Normal_KL q p = Some t /\
    0 <= reduce_sum t /\
    (mu q = mu p -> var q = var p -> reduce_sum t = 0).
Proof.
  intros Hq Hp Pq Pp.
  destruct (Normal_over_conf Hq) as [Cqm Cqv].
  destruct (Normal_over_conf Hp) as [Cpm Cpv].
  destruct (@Normal_KL_conf d q p Cqm Cqv Cpm Cpv) as (t & E & Ct & St & It).
  destruct Hq as (Wqm & Wqv & Sqm & Sqv). destruct Hp as (Wpm & Wpv & Spm & Spv).
  exists t. split; [exact E|].
  rewrite (@reduce_sum_upto d t (proj1 Ct) (St Sqv)). split.
  - apply Rsum_upto_nonneg. intros i Hi. rewrite (It i Hi).
    apply kl_elem_nonneg.
    + now apply (@all_pos_ix d (var q) i).
    + now apply (@all_pos_ix d (var p) i).
  - intros Em Ev. apply Rsum_upto_zero. intros i Hi. rewrite (It i Hi).
    rewrite Em, Ev. apply kl_elem_same.
    now apply (@all_pos_ix d (var p) i).
Qed.

(** ** Creation of the distributions *)

Lemma bind_ok {A B : Type} (m : M A) (k : A -> M B) s r :
  bind m k s = Ok r -> exists a s1, m s = Ok (a, s1) /\ k a s1 = Ok r.
Proof.
  unfold bind. destruct (m s) as [[a s1]|e]; [|discriminate].
  intros H. eauto.
Qed.

Lemma random_tensor_ok prim d s :
  exists t g',
    random_tensor prim d s = Ok (t, mkState (store s) g') /\
    wf t /\ get_shape t = d.
Proof.
  destruct d as [|n|r c].
  - unfold random_tensor, bind, draw. destruct (prim (gen s)) as [x g1].
    do 2 eexists. split; [reflexivity|]. simpl; auto.
  - rewrite random_vector. do 2 eexists. split; [reflexivity|].
    simpl. rewrite draws_length. auto.
  - rewrite random_matrix. do 2 eexists. split; [reflexivity|].
    destruct (draw_rows_length prim r c (gen s)) as [H1 H2].
    simpl. rewrite H1. auto.
Qed.

Lemma NormPosterior_ok d r s :
  exists e1 e2 g',
    NormPosterior d r s
    = Ok (Normal_init (tmap (fun x => sqrt r * x) e1)
                      (tmap pos (tmap (fun x => r * x) e2)),
          mkState (store s ++ [tmap (fun x => sqrt r * x) e1;
                               tmap (fun x => r * x) e2]) g') /\
    wf e1 /\ get_shape e1 = d /\ wf e2 /\ get_shape e2 = d.
Proof.
  unfold NormPosterior, tf_random_normal.
  destruct (random_tensor_ok tf_randn d s) as (e1 & g1 & E1 & W1 & S1').
  unfold bind at 1. rewrite E1.
  unfold bind at 1, tf_Variable at 1. cbn [store gen].
  set (s1 := mkState _ g1).
  destruct (random_tensor_ok tf_randn d s1) as (e2 & g2 & E2 & W2 & S2').
  unfold bind at 1. rewrite E2.
  unfold bind, tf_Variable, ret. cbn [store gen]. subst s1. cbn [store gen].
  exists e1, e2, g2. rewrite <- app_assoc. simpl. auto.
Qed.

Lemma NormPrior_ok d v lp s :
  NormPrior d v lp s
  = Ok (Normal_init (zeros d) (Scal (if lp then pos v else v)),
        mkState (store s ++ (if lp then [Scal v] else [])) (gen s)).
Proof.
  unfold NormPrior. destruct lp.
  - reflexivity.
  - unfold bind, ret. rewrite app_nil_r. destruct s; reflexivity.
Qed.

Lemma zeros_ok d : wf (zeros d) /\ get_shape (zeros d) = d.
Proof.
  destruct d as [|n|r c]; simpl; auto.
  - now rewrite repeat_length.
  - split.
    + apply Forall_forall. intros row Hrow. apply repeat_spec in Hrow.
      subst. apply repeat_length.
    + now rewrite repeat_length.
Qed.

Lemma Normal_init_over d m v :
  wf m -> get_shape m = d -> wf v -> get_shape v = d ->
  Normal_over d (Normal_init m v).
Proof. unfold Normal_over. simpl. auto. Qed.

Lemma routed_mono st new t : routed st t -> routed (st ++ new) t.
Proof.
  intros (v & Hin & E). exists v. split; auto. apply in_or_app. now left.
Qed.

Lemma NormPosterior_inv d r s :
  exists q s',
    NormPosterior d r s = Ok (q, s') /\
    Normal_over d q /\ routed (store s') (var q) /\
    exists new, store s' = store s ++ new /\ length new = 2%nat.
Proof.
  destruct (NormPosterior_ok d r s) as (e1 & e2 & g' & E & W1 & S1' & W2 & S2').
  do 2 eexists. split; [exact E|]. split; [|split].
  - apply Normal_init_over; rewrite ?tmap_shape; auto using tmap_wf.
  - exists (tmap (fun x => r * x) e2). split; [|reflexivity].
    cbn [store]. apply in_or_app. right. simpl. auto.
  - cbn [store]. eexists. split; [reflexivity|reflexivity].
Qed.

Lemma replicateM_NormPosterior d r k s :
  exists qs s',
    replicateM k (NormPosterior d r) s = Ok (qs, s') /\
    length qs = k /\
    Forall (fun q => Normal_over d q /\ routed (store s') (var q)) qs /\
    exists new, store s' = store s ++ new /\ length new = (2 * k)%nat.
Proof.
  revert s; induction k as [|k IH]; intros s.
  - exists [], s. simpl. split; [reflexivity|]. split; auto. split; auto.
    exists []. now rewrite app_nil_r.
  - destruct (NormPosterior_inv d r s) as (q & s1 & E & Hq & Rq & n1 & St1 & L1).
    destruct (IH s1) as (qs & s2 & E2 & Lq & Hqs & n2 & St2 & L2).
    exists (q :: qs), s2. cbn [replicateM]. unfold bind at 1. rewrite E.
    unfold bind at 1. rewrite E2. unfold ret.
    split; [reflexivity|]. split; [simpl; congruence|]. split.
    + constructor; auto. split; auto. rewrite St2. now apply routed_mono.
    + exists (n1 ++ n2). rewrite St2, St1, app_assoc. split; auto.
      rewrite length_app. lia.
Qed.

(** What [dense_dists] returns, whatever the state it starts from. *)
Lemma dense_dists_inv o reg lp mix c s :
  exists qW qb s',
    dense_dists o reg lp mix c s
    = Ok ((Normal_init (zeros (S2 c o)) (Scal (if lp then pos reg else reg)),
           Normal_init (zeros (S1 o)) (Scal (if lp then pos reg else reg)),
           qW, qb), s') /\
    Forall (fun q => Normal_over (S2 c o) q /\ routed (store s') (var q))
           (post_comps qW) /\
    Forall (fun q => Normal_over (S1 o) q /\ routed (store s') (var q))
           (post_comps qb) /\
    ((mix <= 1)%nat -> exists nW nb, qW = QNorm nW /\ qb = QNorm nb) /\
    ((1 < mix)%nat -> exists mW mb,
        qW = QMix mW /\ qb = QMix mb /\
        K mW = mix /\ K mb = mix /\
        length (comps mW) = mix /\ length (comps mb) = mix) /\
    (lp = true -> In (Scal reg) (store s')) /\
    exists new, store s' = store s ++ new /\ length new = nvars lp mix.
Proof.
  unfold dense_dists.
  unfold bind at 1. rewrite NormPrior_ok.
  unfold bind at 1. rewrite NormPrior_ok. cbn [store gen].
  set (s0 := mkState _ (gen s)).
  assert (Hs0 : exists n0, store s0 = store s ++ n0 /\
                           length n0 = if lp then 2%nat else 0%nat).
  { subst s0. cbn [store]. rewrite <- app_assoc. eexists. split; [reflexivity|].
    destruct lp; reflexivity. }
  assert (Hin0 : lp = true -> In (Scal reg) (store s0)).
  { intros ->. subst s0. cbn [store]. apply in_or_app. right. simpl. auto. }
  destruct Hs0 as (n0 & St0 & L0). unfold nvars.
  destruct (1 <? mix)%nat eqn:Hmix.
  - apply Nat.ltb_lt in Hmix. unfold MixPosterior.
    destruct (replicateM_NormPosterior (S2 c o) reg mix s0)
      as (qsW & s1 & E1 & L1 & F1 & n1 & St1 & Ln1).
    destruct (replicateM_NormPosterior (S1 o) reg mix s1)
      as (qsb & s2 & E2 & L2 & F2 & n2 & St2 & Ln2).
    exists (QMix (mkMix qsW mix)), (QMix (mkMix qsb mix)), s2.
    unfold bind at 1. unfold bind at 1. unfold bind at 1. rewrite E1.
    unfold ret at 1. unfold bind at 1. unfold bind at 1. rewrite E2.
    unfold ret. split; [reflexivity|]. cbn [post_comps comps K].
    split; [|split; [|split; [|split; [|split]]]].
    + eapply Forall_impl; [|exact F1]. intros q [H1 H2]. split; auto.
      rewrite St2. now apply routed_mono.
    + exact F2.
    + intros; lia.
    + intros _. do 2 eexists. repeat split; auto.
    + intros H. rewrite St2, St1. apply in_or_app. left.
      apply in_or_app. left. auto.
    + exists (n0 ++ n1 ++ n2). rewrite St2, St1, St0, <- !app_assoc.
      split; auto. rewrite !length_app. lia.
  - apply Nat.ltb_ge in Hmix.
    destruct (NormPosterior_inv (S2 c o) reg s0)
      as (qW & s1 & E1 & H1 & R1 & n1 & St1 & Ln1).
    destruct (NormPosterior_inv (S1 o) reg s1)
      as (qb & s2 & E2 & H2 & R2 & n2 & St2 & Ln2).
    exists (QNorm qW), (QNorm qb), s2.
    unfold bind at 1. unfold bind at 1. rewrite E1.
    unfold bind at 1. rewrite E2.
    unfold ret. split; [reflexivity|]. cbn [post_comps].
    split; [|split; [|split; [|split; [|split]]]].
    + constructor; auto. split; auto. rewrite St2. now apply routed_mono.
    + constructor; auto.
    + intros _. eauto.
    + intros; lia.
    + intros H. rewrite St2, St1. apply in_or_app. left.
      apply in_or_app. left. auto.
    + exists (n0 ++ n1 ++ n2). rewrite St2, St1, St0, <- !app_assoc.
      split; auto. rewrite !length_app. lia.
Qed.

Lemma routed_all_pos st t :
  (forall x, 0 < pos x) -> routed st t -> all_pos t.
Proof.
  intros Hpos (v & _ & ->). unfold all_pos. rewrite tmap_telts, Forall_map.
  apply Forall_forall. intros x _. apply Hpos.
Qed.

(** C3 (amended): of the distributions [dense_var] creates, every
    posterior variance (each component's, for a mixture) is [pos] of a
    Variable, and so is the prior variance when [learn_prior] is set;
    with [learn_prior] unset the prior variance is the [reg] argument as
    given.  Hence, [pos] being positive, the posterior variances are
    strictly positive, and the prior variances are when [learn_prior] is
    set or [reg > 0]. *)
Theorem dense_var_variances (output_dim : nat) (reg : R) (learn_prior : bool)
  (mixtures input_dim : nat) (s : state) pW pb qW qb s' :
  dense_dists output_dim reg learn_prior mixtures input_dim s
  = Ok ((pW, pb, qW, qb), s') ->
  Forall (fun q => routed (store s') (var q)) (post_comps qW ++ post_comps qb) /\
  (learn_prior = true -> routed (store s') (var pW) /\ routed (store s') (var pb)) /\
  (learn_prior = false -> var pW = Scal reg /\ var pb = Scal reg) /\
  ((forall x, 0 < pos x) ->
   Forall (fun q => all_pos (var q)) (post_comps qW ++ post_comps qb) /\
   (learn_prior = true \/ 0 < reg -> all_pos (var pW) /\ all_pos (var pb))).
Proof.
  intros E.
  destruct (dense_dists_inv output_dim reg learn_prior mixtures input_dim s)
    as (qW0 & qb0 & s0 & E0 & FW & Fb & _ & _ & Hin & _).
  rewrite E0 in E. inversion E; subst; clear E.
  assert (HR : Forall (fun q => routed (store s') (var q))
                 (post_comps qW ++ post_comps qb)).
  { apply Forall_app. split; eapply Forall_impl; try eassumption;
      intros q [_ H]; exact H. }
  split; [exact HR|]. split; [|split].
  - intros ->. cbn [var Normal_init].
    assert (H : routed (store s') (Scal (pos reg)))
      by (exists (Scal reg); split; auto).
    auto.
  - intros ->. cbn [var Normal_init]. auto.
  - intros Hpos. split.
    + eapply Forall_impl; [|exact HR]. intros q Hq.
      now apply (@routed_all_pos (store s')).
    + intros Hc. cbn [var Normal_init]. unfold all_pos. simpl.
      assert (H : 0 < (if learn_prior then pos reg else reg)).
      { destruct learn_prior; [apply Hpos|]. destruct Hc; [discriminate|auto]. }
      auto.
Qed.

(** ** Sampling leaves the store alone *)

Lemma lift_ok {A : Type} (o : option A) s a s' :
  lift o s = Ok (a, s') -> o = Some a /\ s' = s.
Proof.
  destruct o; simpl; unfold ret, raise; intros H; inversion H; auto.
Qed.

Lemma Normal_sample_store q s t s' :
  Normal_sample q s = Ok (t, s') -> store s' = store s.
Proof.
  unfold Normal_sample, tf_random_normal. intros H.
  apply bind_ok in H. destruct H as (e & s1 & E & H).
  destruct (random_tensor_ok tf_randn (get_shape (mu q)) s)
    as (e' & g' & E' & _). rewrite E' in E. inversion E; subst.
  apply lift_ok in H. destruct H as [_ ->]. reflexivity.
Qed.

Lemma Mix_sample_loop_store k z qs : forall i acc s t s',
  Mix_sample_loop k i z qs acc s = Ok (t, s') -> store s' = store s.
Proof.
  induction qs as [|qk qs IH]; intros i acc s t s' H; simpl in H.
  - unfold ret in H. inversion H; reflexivity.
  - apply bind_ok in H. destruct H as (t1 & s1 & E1 & H).
    apply bind_ok in H. destruct H as (t2 & s2 & E2 & H).
    apply lift_ok in E2. destruct E2 as [_ ->].
    apply IH in H. rewrite H.
    destruct (k =? i)%nat.
    + now apply Normal_sample_store in E1.
    + unfold ret in E1. inversion E1; reflexivity.
Qed.

Lemma sample_store q s t s' :
  sample q s = Ok (t, s') -> store s' = store s.
Proof.
  destruct q as [q|q]; cbn [sample].
  - apply Normal_sample_store.
  - unfold Mix_sample. destruct (K q); [discriminate|].
    intros H. apply bind_ok in H. destruct H as (k & s1 & E1 & H).
    destruct (tf_multinomial _ (gen s)) as [k' g'] in E1.
    inversion E1; subst; clear E1.
    destruct (comps q); [discriminate|].
    apply Mix_sample_loop_store in H. exact H.
Qed.

Lemma mapM_store {A B : Type} (f : A -> M B) l :
  (forall a s b s', f a s = Ok (b, s') -> store s' = store s) ->
  forall s r s', mapM f l s = Ok (r, s') -> store s' = store s.
Proof.
  intros Hf. induction l as [|a l IH]; intros s r s' H; simpl in H.
  - unfold ret in H. inversion H; reflexivity.
  - apply bind_ok in H. destruct H as (b & s1 & E1 & H).
    apply bind_ok in H. destruct H as (bs & s2 & E2 & H).
    unfold ret in H. inversion H; subst.
    apply IH in E2. apply Hf in E1. congruence.
Qed.

Lemma _input_dim_ok X s c s' :
  _input_dim X s = Ok (c, s') ->
  s' = s /\ exists m rest, X = Matr c m :: rest.
Proof.
  destruct X as [|[x|v|c0 m] X]; simpl; try discriminate.
  unfold ret. intros H; inversion H; subst. eauto.
Qed.

(** A returning [build_dense] ran [dense_dists] from the state it was
    given, and its KL is [dense_KL] of the distributions created. *)
Lemma build_dense_inv o reg lp mix X s Phi kl s' :
  build_dense o reg lp mix X s = Ok ((Phi, kl), s') ->
  exists c pW pb qW qb s1,
    _input_dim X s = Ok (c, s) /\
    dense_dists o reg lp mix c s = Ok ((pW, pb, qW, qb), s1) /\
    dense_KL pW pb qW qb = Some kl /\
    store s' = store s1.
Proof.
  unfold build_dense. intros H.
  apply bind_ok in H. destruct H as (c & s0 & E0 & H).
  destruct (_input_dim_ok _ _ E0) as [-> _].
  apply bind_ok in H. destruct H as ([[[pW pb] qW] qb] & s1 & E1 & H).
  apply bind_ok in H. destruct H as (Phi0 & s2 & E2 & H).
  apply bind_ok in H. destruct H as (kl0 & s3 & E3 & H).
  unfold ret in H. inversion H; subst; clear H.
  apply lift_ok in E3. destruct E3 as [E3 ->].
  exists c, pW, pb, qW, qb, s1. repeat split; auto.
  eapply mapM_store; [|exact E2].
  intros x sa b sb Hx.
  apply bind_ok in Hx. destruct Hx as (W & sc & Ec & Hx).
  apply bind_ok in Hx. destruct Hx as (xW & sd & Ed & Hx).
  apply bind_ok in Hx. destruct Hx as (bb & se & Ee & Hx).
  apply lift_ok in Ed. destruct Ed as [_ ->].
  apply lift_ok in Hx. destruct Hx as [_ ->].
  apply sample_store in Ec. apply sample_store in Ee. congruence.
Qed.

(** ** The KL term of the dense layer *)

Lemma Normal_KL_sum d q p :
  Normal_over d q -> conf d (mu p) -> conf d (var p) ->
  exists t,
    Normal_KL q p = Some t /\
    reduce_sum t
    = Rsum_upto (size d)
        (fun i => kl_elem (ix (mu q) i) (ix (var q) i)
                          (ix (mu p) i) (ix (var p) i)).
Proof.
  intros Hq Cpm Cpv. destruct (Normal_over_conf Hq) as [Cqm Cqv].
  destruct (@Normal_KL_conf d q p Cqm Cqv Cpm Cpv) as (t & E & Ct & St & It).
  exists t. split; [exact E|].
  destruct Hq as (_ & _ & _ & Sqv).
  rewrite (@reduce_sum_upto d t (proj1 Ct) (St Sqv)).
  apply Rsum_upto_ext. exact It.
Qed.

(** C5: for a posterior [q] and a prior [p] over the same shape,
    [_Normal.KL] returns the tensor of that shape whose entry [i] is
    [0.5 * (log p.var - log q.var + q.var/p.var - 1 + (q.mu - p.mu)^2/p.var)]
    at the entries [i] of the four parameters; and the KL term of a
    [dense_var] layer with a normal posterior is the sum of these values
    over the entries of W plus their sum over the entries of b (the
    scalar prior variance being broadcast). *)
Theorem Normal_KL_spec :
  (forall (d : shape) (q p : _Normal),
      Normal_over d q -> Normal_over d p ->
      exists t,
        Normal_KL q p = Some t /\ wf t /\ get_shape t = d /\
        forall i, (i < size d)%nat ->
          ix t i = kl_elem (ix (mu q) i) (ix (var q) i)
                           (ix (mu p) i) (ix (var p) i)) /\
  (forall (output_dim : nat) (reg : R) (learn_prior : bool) (mixtures : nat)
          (X : tensors) (s : state) Phi kl s',
      (mixtures <= 1)%nat ->
      build_dense output_dim reg learn_prior mixtures X s = Ok ((Phi, kl), s') ->
      exists input_dim pW pb qW qb s1,
        _input_dim X s = Ok (input_dim, s) /\
        dense_dists output_dim reg learn_prior mixtures input_dim s
        = Ok ((pW, pb, QNorm qW, QNorm qb), s1) /\
        kl = Rsum_upto (input_dim * output_dim)
               (fun i => kl_elem (ix (mu qW) i) (ix (var qW) i)
                                 (ix (mu pW) i) (ix (var pW) i))
             + Rsum_upto output_dim
                 (fun i => kl_elem (ix (mu qb) i) (ix (var qb) i)
                                   (ix (mu pb) i) (ix (var pb) i))).
Proof.
  split.
  - intros d q p Hq Hp.
    destruct (Normal_over_conf Hq) as [Cqm Cqv].
    destruct (Normal_over_conf Hp) as [Cpm Cpv].
    destruct (@Normal_KL_conf d q p Cqm Cqv Cpm Cpv) as (t & E & Ct & St & It).
    exists t. destruct Hq as (_ & _ & _ & Sqv).
    split; [exact E|]. split; [exact (proj1 Ct)|]. split; [exact (St Sqv)|].
    exact It.
  - intros o reg lp mix X s Phi kl s' Hmix Hb.
    destruct (build_dense_inv _ _ _ _ _ _ Hb)
      as (c & pW & pb & qW & qb & s1 & Ei & Ed & Ek & _).
    destruct (dense_dists_inv o reg lp mix c s)
      as (qW0 & qb0 & s0 & E0 & FW & Fb & Hn & _).
    rewrite E0 in Ed. inversion Ed; subst; clear Ed.
    destruct (Hn Hmix) as (nW & nb & -> & ->).
    cbn [post_comps] in FW, Fb.
    apply Forall_inv in FW. apply Forall_inv in Fb.
    destruct FW as [HW _]. destruct Fb as [Hb' _].
    exists c, (Normal_init (zeros (S2 c o)) (Scal (if lp then pos reg else reg))),
      (Normal_init (zeros (S1 o)) (Scal (if lp then pos reg else reg))),
      nW, nb, s1.
    split; [exact Ei|]. split; [exact E0|].
    unfold dense_KL in Ek. cbn [KL_to] in Ek.
    destruct (@Normal_KL_sum (S2 c o) nW
                (Normal_init (zeros (S2 c o)) (Scal (if lp then pos reg else reg))) HW)
      as (tW & EW & SW).
    { split; apply zeros_ok || (left; apply zeros_ok). }
    { split; simpl; auto. }
    destruct (@Normal_KL_sum (S1 o) nb
                (Normal_init (zeros (S1 o)) (Scal (if lp then pos reg else reg))) Hb')
      as (tb & Eb & Sb).
    { split; apply zeros_ok || (left; apply zeros_ok). }
    { split; simpl; auto. }
    cbn [zeros] in EW, Eb.
    rewrite EW in Ek. cbn [obind] in Ek. rewrite Eb in Ek. cbn [obind] in Ek.
    inversion Ek; subst. rewrite SW, Sb. reflexivity.
Qed.

(** ** Every build creates its own parameters *)


(** ** The mixture bound *)

Lemma omap_ext {A B : Type} (f g : A -> option B) l :
  (forall a, f a = g a) -> omap f l = omap g l.
Proof.
  intros H. induction l as [|a l IH]; simpl; auto. now rewrite H, IH.
Qed.

Lemma omap_post {A B C : Type} (f : A -> option B) (g : B -> C) l :
  omap (fun a => b <-? f a ;; Some (g b)) l
  = (bs <-? omap f l ;; Some (map g bs)).
Proof.
  induction l as [|a l IH]; simpl; auto.
  destruct (f a) as [b|]; simpl; auto. rewrite IH.
  destruct (omap f l); reflexivity.
Qed.

Lemma omap_length {A B : Type} (f : A -> option B) l r :
  omap f l = Some r -> length r = length l.
Proof.
  revert r; induction l as [|a l IH]; simpl; intros r H.
  - inversion H; reflexivity.
  - destruct (f a); simpl in H; [|discriminate].
    destruct (omap f l); simpl in H; [|discriminate].
    inversion H; subst. simpl. f_equal. now apply IH.
Qed.

Lemma Rsum_exp_pos l : l <> [] -> 0 < Rsum (map exp l).
Proof.
  destruct l as [|x l]; [congruence|]. intros _.
  unfold Rsum. simpl.
  assert (H : 0 <= fold_right Rplus 0 (map exp l)).
  { apply Rsum_nonneg. rewrite Forall_map. apply Forall_forall.
    intros y _. left. apply exp_pos. }
  pose proof (exp_pos x). lra.
Qed.

Lemma Rsum_exp_shift a l :
  Rsum (map exp (map (fun x => x - a) l)) = exp (- a) * Rsum (map exp l).
Proof.
  induction l as [|x l IH]; unfold Rsum in *; simpl; [lra|].
  rewrite IH. unfold Rminus. rewrite exp_plus. lra.
Qed.

Lemma reduce_logsumexp_shift a l :
  l <> [] ->
  reduce_logsumexp (map (fun x => x - a) l) = reduce_logsumexp l - a.
Proof.
  intros Hl. unfold reduce_logsumexp. rewrite Rsum_exp_shift.
  rewrite ln_mult; [|apply exp_pos|now apply Rsum_exp_pos].
  rewrite ln_exp. lra.
Qed.

Lemma overlaps_shift self qk c :
  omap (fun qj => v <-? tbin Rplus (var qk) (var qj) ;;
                  l <-? _log_norm (mu qk) (mu qj) v ;;
                  Some (l - c))
       (comps self)
  = (ls <-? overlaps self qk ;; Some (map (fun l => l - c) ls)).
Proof.
  unfold overlaps. rewrite <- omap_post. apply omap_ext.
  intros qj. destruct (tbin Rplus (var qk) (var qj)); reflexivity.
Qed.

(** Each term of the code is the documented one moved by [K - log K]
    (and then divided by [K]). *)
Lemma Mix_KL_term_offset self p qk :
  comps self <> [] ->
  Mix_KL_term self p qk
  = (T <-? Mix_KL_term_documented self p qk ;;
     Some ((T - (INR (K self) - ln (INR (K self)))) / INR (K self))).
Proof.
  intros Hne. unfold Mix_KL_term, Mix_KL_term_documented.
  destruct (_log_norm (mu qk) (mu p) (var p)) as [lp|]; cbn [obind]; auto.
  destruct (tbin Rdiv (var qk) (var p)) as [trt|]; cbn [obind]; auto.
  rewrite !overlaps_shift.
  destruct (overlaps self qk) as [ls|] eqn:E; cbn [obind]; auto.
  assert (Hls : ls <> []).
  { apply omap_length in E. destruct ls; [|discriminate].
    destruct (comps self); [congruence|discriminate]. }
  rewrite !reduce_logsumexp_shift by exact Hls.
  f_equal. f_equal. lra.
Qed.

Lemma Mix_KL_loop_sum self p qs acc :
  Mix_KL_loop self p qs acc
  = (ts <-? omap (Mix_KL_term self p) qs ;; Some (acc + Rsum ts)).
Proof.
  revert acc; induction qs as [|qk qs IH]; intros acc; simpl.
  - f_equal. unfold Rsum; simpl; lra.
  - destruct (Mix_KL_term self p qk) as [t|]; cbn [obind]; auto.
    rewrite IH. destruct (omap (Mix_KL_term self p) qs); cbn [obind]; auto.
    f_equal. unfold Rsum; simpl; lra.
Qed.

Lemma Rsum_map_offset (d k : R) l :
  k <> 0 ->
  Rsum (map (fun T => (T - d) / k) l) = Rsum l / k - INR (length l) * d / k.
Proof.
  intros Hk. induction l as [|x l IH].
  - unfold Rsum; simpl. field. exact Hk.
  - change (Rsum (map (fun T => (T - d) / k) (x :: l)))
      with ((x - d) / k + Rsum (map (fun T => (T - d) / k) l)).
    change (Rsum (x :: l)) with (x + Rsum l).
    rewrite IH. change (length (x :: l)) with (S (length l)).
    rewrite S_INR. field. exact Hk.
Qed.

(** Whenever it is defined, the bound the code computes is the
    documented bound minus [K - log K]. *)
Lemma Mix_KL_offset self p :
  comps self <> [] -> K self = length (comps self) ->
  Mix_KL self p
  = (d <-? Mix_KL_documented self p ;;
     Some (d - (INR (K self) - ln (INR (K self))))).
Proof.
  intros Hne HK. unfold Mix_KL, Mix_KL_documented.
  rewrite Mix_KL_loop_sum.
  rewrite (omap_ext _ _ (comps self) (fun qk => @Mix_KL_term_offset self p qk Hne)).
  rewrite omap_post.
  destruct (omap (Mix_KL_term_documented self p) (comps self)) as [Ts|] eqn:E;
    cbn [obind]; auto.
  assert (HK0 : INR (K self) <> 0).
  { rewrite HK. apply not_0_INR. destruct (comps self); [congruence|discriminate]. }
  rewrite Rsum_map_offset by exact HK0.
  apply omap_length in E. rewrite E, <- HK.
  f_equal. field. exact HK0.
Qed.

Lemma K_minus_ln_K_pos (k : R) : 0 < k -> 0 < k - ln k.
Proof.
  intros Hk. pose proof (exp_ineq1_le (ln k)) as H.
  rewrite exp_ln in H by exact Hk. lra.
Qed.

(** * Further layers *)

Definition shape_eqb (a b : shape) : bool :=
  match a, b with
  | S0, S0 => true
  | S1 n, S1 m => (n =? m)%nat
  | S2 r c, S2 r' c' => (r =? r')%nat && (c =? c')%nat
  | _, _ => false
  end.

(** [tf.add_n(inputs)]: a non-empty list of tensors of one shape, added
    entry by entry (no broadcasting). *)
Fixpoint add_n (l : list tensor) : option tensor :=
  match l with
  | [] => None
  | t :: rest =>
      match rest with
      | [] => Some t
      | _ =>
          match add_n rest with
          | Some s =>
              if shape_eqb (get_shape t) (get_shape s)
              then tbin Rplus t s
              else None
          | None => None
          end
      end
  end.

(** def add() *)
Definition build_add (Xs : list tensors) : M (tensors * R) :=
  Phi <- mapM (fun X => lift (add_n X)) Xs ;;
  let KL := 0 in
  ret (Phi, KL).

Definition add := build_add.

(** [tf.nn.l2_loss(t)]: half the sum of the squared entries. *)
Definition l2_loss (t : tensor) : R := reduce_sum (tmap (fun x => x ^ 2) t) / 2.

(** def _l1_loss(X) *)
Definition _l1_loss (X : tensor) : R := reduce_sum (tmap Rabs X).

(** def dense_map(output_dim, l1_reg=1., l2_reg=1.) *)
Definition build_dense_map (output_dim : nat) (l1_reg l2_reg : R) (X : tensors)
  : M (tensors * R) :=
  input_dim <- _input_dim X ;;
  let Wdim := S2 input_dim output_dim in
  let bdim := S1 output_dim in
  eW <- tf_random_normal Wdim ;;
  W <- tf_Variable eW ;;
  eb <- tf_random_normal bdim ;;
  b <- tf_Variable eb ;;
  Phi <- mapM (fun x => lift (xW <-? matmul x W ;; tbin Rplus xW b)) X ;;
  let l2 := if Rlt_dec 0 l2_reg then l2_reg * (l2_loss W + l2_loss b) else 0 in
  let l1 := if Rlt_dec 0 l1_reg then l1_reg * (_l1_loss W + _l1_loss b) else 0 in
  let pen := l1 + l2 in
  ret (Phi, pen).

Definition dense_map (output_dim : nat) (l1_reg l2_reg : R) :=
  build_dense_map output_dim l1_reg l2_reg.

(** The column count and the rows of a matrix. *)
Definition ncols (t : tensor) : nat :=
  match t with
  | Matr c _ => c
  | _ => O
  end.

Definition rows (t : tensor) : list (list R) :=
  match t with
  | Matr _ m => m
  | _ => []
  end.

(** A matrix with [r] rows. *)
Definition matrix_of_rows (r : nat) (t : tensor) : Prop :=
  exists c m, t = Matr c m /\ length m = r.

(** A matrix with [c] columns; the rows are the batch. *)
Definition batch_of (c : nat) (t : tensor) : Prop := exists m, t = Matr c m.

(** A normal whose [sigma] is the square root of its variance, as
    [_Normal.__init__] leaves it. *)
Definition Normal_built (d : shape) (n : _Normal) : Prop :=
  Normal_over d n /\ sigma n = tmap sqrt (var n).

(** ** Facts about the combinators *)

Lemma mapM_lift_Forall2 {A B : Type} (f : A -> option B) (P : A -> B -> Prop)
  (l : list A) (s : state) :
  Forall (fun a => exists b, f a = Some b /\ P a b) l ->
  exists r, mapM (fun a => lift (f a)) l s = Ok (r, s) /\ Forall2 P l r.
Proof.
  induction 1 as [|a l (b & Eb & Pb) Hl (r & Er & Fr)]; simpl.
  - exists []. split; [reflexivity|constructor].
  - exists (b :: r). unfold bind at 1. rewrite Eb. cbn [lift]. unfold ret at 1.
    unfold bind at 1. rewrite Er. split; [reflexivity|now constructor].
Qed.

Lemma mapM_lift_None {A B : Type} (f : A -> option B) (l : list A) (s : state) :
  (exists a, In a l /\ f a = None) ->
  mapM (fun a => lift (f a)) l s = Raise ShapeError.
Proof.
  intros (a & Hin & Ha). induction l as [|x l IH]; [destruct Hin|].
  simpl. unfold bind at 1. destruct (f x) as [b|] eqn:Ex; [|reflexivity].
  cbn [lift]. unfold ret at 1. unfold bind at 1.
  destruct Hin as [->|Hin]; [congruence|].
  rewrite (IH Hin). reflexivity.
Qed.



Lemma nth_zipWith_app {A : Type} (u v : list (list A)) i :
  length u = length v -> (i < length u)%nat ->
  nth i (zipWith (@app A) u v) [] = nth i u [] ++ nth i v [].
Proof.
  revert v i; induction u as [|a u IH]; intros [|b v] i Hl Hi;
    simpl in *; try lia; try discriminate.
  destruct i as [|i]; auto. apply IH; [congruence|lia].
Qed.

Lemma concat1_rows (X : tensors) (r : nat) :
  X <> [] -> Forall (matrix_of_rows r) X ->
  exists m,
    concat1 X = Some (Matr (list_sum (map ncols X)) m) /\
    length m = r /\
    forall i, (i < r)%nat ->
      nth i m [] = concat (map (fun x => nth i (rows x) []) X).
Proof.
  intros Hne HX. induction HX as [|x X (c & m & -> & Hm) HX IH]; [congruence|].
  destruct X as [|y X].
  - exists m. simpl. rewrite Nat.add_0_r. split; [reflexivity|]. split; auto.
    intros i _. now rewrite app_nil_r.
  - destruct IH as (m' & E' & Hm' & Hrows); [discriminate|].
    exists (zipWith (@app R) m m').
    change (concat1 (Matr c m :: y :: X))
      with (match concat1 (y :: X) with
            | Some (Matr c' m') =>
                if (length m =? length m')%nat
                then Some (Matr (c + c') (zipWith (@app R) m m'))
                else None
            | _ => None
            end).
    rewrite E', Hm, Hm', Nat.eqb_refl. split; [reflexivity|]. split.
    + rewrite zipWith_length; congruence.
    + intros i Hi. rewrite nth_zipWith_app by congruence.
      rewrite (Hrows i Hi). reflexivity.
Qed.

(** X2: [build_cat] raises when one of the inner lists is empty; when
    every inner list is a non-empty list of matrices with a common row
    count, it returns, without touching the state, one matrix per inner
    list: its feature dimension is the sum of theirs, it has their row
    count, and each of its rows is their rows side by side in order. *)
Theorem build_cat_rows (Xs : list tensors) (s : state) :
  (In [] Xs -> build_cat Xs s = Raise ShapeError) /\
  (Forall (fun X => X <> [] /\ exists r, Forall (matrix_of_rows r) X) Xs ->
   exists Phi,
     build_cat Xs s = Ok ((Phi, 0), s) /\
     Forall2 (fun X t =>
                ncols t = list_sum (map ncols X) /\
                Forall (fun x => length (rows x) = length (rows t)) X /\
                forall i, (i < length (rows t))%nat ->
                  nth i (rows t) [] = concat (map (fun x => nth i (rows x) []) X))
             Xs Phi).
Proof.
  unfold build_cat, bind. split.
  - intros Hin. rewrite mapM_lift_None; [reflexivity|].
    exists []. split; [exact Hin|reflexivity].
  - intros H.
    destruct (@mapM_lift_Forall2 _ _ concat1
                (fun X t =>
                   ncols t = list_sum (map ncols X) /\
                   Forall (fun x => length (rows x) = length (rows t)) X /\
                   forall i, (i < length (rows t))%nat ->
                     nth i (rows t) [] = concat (map (fun x => nth i (rows x) []) X))
                Xs s) as (Phi & E & F).
    { eapply Forall_impl; [|exact H]. intros X (Hne & r & HX).
      destruct (concat1_rows Hne HX) as (m & Em & Hm & Hr).
      eexists. split; [exact Em|]. cbn [ncols rows]. split; [reflexivity|].
      split.
      - eapply Forall_impl; [|exact HX]. intros x (c & mx & -> & Hx).
        simpl. congruence.
      - intros i Hi. apply Hr. congruence. }
    exists Phi. rewrite E. split; [reflexivity|exact F].
Qed.

Lemma shape_eqb_refl (d : shape) : shape_eqb d d = true.
Proof. destruct d; simpl; rewrite ?Nat.eqb_refl; reflexivity. Qed.

Lemma add_n_sum (X : tensors) (d : shape) :
  X <> [] -> Forall (fun x => wf x /\ get_shape x = d) X ->
  exists t,
    add_n X = Some t /\ wf t /\ get_shape t = d /\
    forall i, (i < size d)%nat -> ix t i = Rsum (map (fun x => ix x i) X).
Proof.
  intros Hne HX. induction HX as [|x X [Wx Sx] HX IH]; [congruence|].
  destruct X as [|y X].
  - exists x. simpl. repeat split; auto. intros i _. unfold Rsum; simpl; lra.
  - destruct IH as (t' & E' & W' & S' & I'); [discriminate|].
    destruct (@tbin_conf Rplus d x t') as (t & E & [Wt _] & St & It).
    { split; auto. } { split; auto. }
    exists t.
    change (add_n (x :: y :: X))
      with (match add_n (y :: X) with
            | Some s0 =>
                if shape_eqb (get_shape x) (get_shape s0)
                then tbin Rplus x s0
                else None
            | None => None
            end).
    rewrite E', Sx, S', shape_eqb_refl. split; [exact E|]. split; [exact Wt|].
    split; [apply St; now left|].
    intros i Hi. rewrite (It i Hi), (I' i Hi). reflexivity.
Qed.

(** X3: [build_add] raises when one of the inner lists is empty; when
    every inner list is a non-empty list of well-formed tensors of one
    shape, it returns, without touching the state, one tensor per inner
    list, of that shape, whose entries are the sums of the corresponding
    entries of the tensors of that inner list. *)
Theorem build_add_sums (Xs : list tensors) (s : state) :
  (In [] Xs -> build_add Xs s = Raise ShapeError) /\
  (Forall (fun X => X <> [] /\
                    exists d, Forall (fun x => wf x /\ get_shape x = d) X) Xs ->
   exists Phi,
     build_add Xs s = Ok ((Phi, 0), s) /\
     Forall2 (fun X t =>
                wf t /\
                Forall (fun x => get_shape x = get_shape t) X /\
                forall i, (i < size (get_shape t))%nat ->
                  ix t i = Rsum (map (fun x => ix x i) X))
             Xs Phi).
Proof.
  unfold build_add, bind. split.
  - intros Hin. rewrite mapM_lift_None; [reflexivity|].
    exists []. split; [exact Hin|reflexivity].
  - intros H.
    destruct (@mapM_lift_Forall2 _ _ add_n
                (fun X t =>
                   wf t /\
                   Forall (fun x => get_shape x = get_shape t) X /\
                   forall i, (i < size (get_shape t))%nat ->
                     ix t i = Rsum (map (fun x => ix x i) X))
                Xs s) as (Phi & E & F).
    { eapply Forall_impl; [|exact H]. intros X (Hne & d & HX).
      destruct (add_n_sum Hne HX) as (t & Et & Wt & St & It).
      exists t. split; [exact Et|]. split; [exact Wt|]. split.
      - eapply Forall_impl; [|exact HX]. intros x [_ Hx]. congruence.
      - rewrite St. exact It. }
    exists Phi. rewrite E. split; [reflexivity|exact F].
Qed.

(** ** More on the KL divergence and the log density *)

Lemma Rsum_zero_inv (l : list R) :
  Forall (fun x => 0 <= x) l -> Rsum l = 0 -> Forall (fun x => x = 0) l.
Proof.
  induction 1 as [|x l Hx Hl IH]; intros E; [constructor|].
  change (Rsum (x :: l)) with (x + Rsum l) in E.
  pose proof (Rsum_nonneg Hl) as Hn.
  constructor; [lra|]. apply IH. lra.
Qed.

Lemma Rsum_upto_zero_inv n g :
  (forall i, (i < n)%nat -> 0 <= g i) -> Rsum_upto n g = 0 ->
  forall i, (i < n)%nat -> g i = 0.
Proof.
  intros Hg E i Hi. unfold Rsum_upto in E.
  apply Rsum_zero_inv in E.
  - rewrite Forall_map, Forall_forall in E. apply E. apply in_seq. lia.
  - rewrite Forall_map, Forall_forall. intros j Hj. apply in_seq in Hj.
    apply Hg. lia.
Qed.

Lemma Rsum_upto_le n g h :
  (forall i, (i < n)%nat -> g i <= h i) -> Rsum_upto n g <= Rsum_upto n h.
Proof.
  unfold Rsum_upto. intros H.
  assert (Hs : forall k, Forall (fun i => (i < n)%nat) (seq k (n - k))).
  { intros k. apply Forall_forall. intros i Hi. apply in_seq in Hi. lia. }
  specialize (Hs O). rewrite Nat.sub_0_r in Hs.
  induction Hs as [|i l Hi Hl IH]; unfold Rsum in *; simpl; [lra|].
  specialize (H i Hi). lra.
Qed.

Lemma kl_elem_zero qm qv pm pv :
  0 < qv -> 0 < pv -> kl_elem qm qv pm pv = 0 -> qm = pm /\ qv = pv.
Proof.
  intros Hq Hp E. unfold kl_elem in E.
  assert (Hx : 0 < qv / pv) by (apply Rdiv_lt_0_compat; auto).
  assert (Hln : ln (qv / pv) = ln qv - ln pv).
  { unfold Rdiv. rewrite ln_mult by (auto using Rinv_0_lt_compat).
    rewrite ln_Rinv by exact Hp. lra. }
  pose proof (exp_ineq1_le (ln (qv / pv))) as Hle.
  rewrite exp_ln in Hle by exact Hx.
  assert (Hsq : 0 <= (qm - pm) ^ 2 / pv).
  { apply Rmult_le_pos; [apply pow2_ge_0|].
    left. now apply Rinv_0_lt_compat. }
  assert (Hsq0 : (qm - pm) ^ 2 / pv = 0) by lra.
  assert (Hl0 : ln (qv / pv) = 0).
  { destruct (Req_dec (ln (qv / pv)) 0) as [H0|H0]; [exact H0|].
    pose proof (@exp_ineq1 _ H0) as Hlt. rewrite exp_ln in Hlt by exact Hx. lra. }
  split.
  - assert (H2 : (qm - pm) ^ 2 = 0).
    { apply (Rmult_eq_reg_r (/ pv)); [|apply Rinv_neq_0_compat; lra].
      unfold Rdiv in Hsq0. lra. }
    assert (H3 : qm - pm = 0).
    { destruct (Req_dec (qm - pm) 0) as [H0|H0]; [exact H0|].
      exfalso. apply (pow_nonzero _ 2) in H0. contradiction. }
    lra.
  - assert (H1 : qv / pv = 1).
    { rewrite <- (exp_ln (qv / pv)) by exact Hx. rewrite Hl0. apply exp_0. }
    apply (Rmult_eq_compat_r pv) in H1. unfold Rdiv in H1.
    rewrite Rmult_assoc, Rinv_l, Rmult_1_r, Rmult_1_l in H1 by lra. exact H1.
Qed.

Lemma concat_rows_inj (c : nat) (m1 m2 : list (list R)) :
  Forall (fun row => length row = c) m1 ->
  Forall (fun row => length row = c) m2 ->
  length m1 = length m2 -> concat m1 = concat m2 -> m1 = m2.
Proof.
  intros H1; revert m2; induction H1 as [|r1 m1 Hr1 Hm1 IH];
    intros m2 H2 Hl E; destruct m2 as [|r2 m2]; try discriminate; auto.
  inversion H2 as [|? ? Hr2 Hm2]; subst. simpl in E, Hl.
  assert (Hr : r1 = r2 /\ concat m1 = concat m2).
  { apply app_eq_app in E. destruct E as (l & [[E1 E2]|[E1 E2]]).
    - assert (l = []) as ->.
      { apply length_zero_iff_nil. apply (f_equal (@length R)) in E1.
        rewrite length_app in E1. lia. }
      rewrite app_nil_r in E1. simpl in E2. auto.
    - assert (l = []) as ->.
      { apply length_zero_iff_nil. apply (f_equal (@length R)) in E1.
        rewrite length_app in E1. lia. }
      rewrite app_nil_r in E1. simpl in E2. auto. }
  destruct Hr as [-> Hc]. f_equal. apply IH; auto.
Qed.

(** Well-formed tensors of one shape with the same entries are equal. *)
Lemma tensor_ext (d : shape) (a b : tensor) :
  wf a -> wf b -> get_shape a = d -> get_shape b = d ->
  (forall i, (i < size d)%nat -> ix a i = ix b i) -> a = b.
Proof.
  intros Wa Wb Sa Sb H.
  assert (Ht : telts a = telts b).
  { apply (nth_ext _ _ 0 0).
    - now rewrite (@telts_length d a Wa Sa), (@telts_length d b Wb Sb).
    - intros i Hi. rewrite (@telts_length d a Wa Sa) in Hi.
      specialize (H i Hi).
      destruct a as [x|u|c1 m1]; destruct b as [y|v|c2 m2];
        simpl in Sa, Sb; subst d; try discriminate; unfold ix in H; auto.
      simpl. destruct i; [simpl in H; congruence|simpl in Hi; lia]. }
  destruct a as [x|u|c1 m1]; destruct b as [y|v|c2 m2];
    simpl in Sa, Sb; subst d; try discriminate; simpl in Ht.
  - congruence.
  - congruence.
  - injection Sb as Hr Hc. subst c2. f_equal.
    apply (@concat_rows_inj c1); auto.
Qed.

(** X4: between diagonal Gaussians over one shape with strictly positive
    variances, the summed KL divergence [_Normal.KL] computes vanishes
    only when the two have the same mean and the same variance. *)
Theorem Normal_KL_zero_only_if_equal (d : shape) (q p : _Normal) (t : tensor) :
  Normal_over d q -> Normal_over d p ->
  all_pos (var q) -> all_pos (var p) ->
  Normal_KL q p = Some t -> reduce_sum t = 0 ->
  mu q = mu p /\ var q = var p.
Proof.
  intros Hq Hp Pq Pp Et E0.
  destruct (Normal_over_conf Hq) as [Cqm Cqv].
  destruct (Normal_over_conf Hp) as [Cpm Cpv].
  destruct (@Normal_KL_conf d q p Cqm Cqv Cpm Cpv) as (t' & E & Ct & St & It).
  rewrite Et in E. inversion E; subst t'; clear E.
  destruct Hq as (Wqm & Wqv & Sqm & Sqv). destruct Hp as (Wpm & Wpv & Spm & Spv).
  rewrite (@reduce_sum_upto d t (proj1 Ct) (St Sqv)) in E0.
  assert (Hpos : forall i, (i < size d)%nat ->
                           0 < ix (var q) i /\ 0 < ix (var p) i).
  { intros i Hi. split.
    - now apply (@all_pos_ix d (var q) i).
    - now apply (@all_pos_ix d (var p) i). }
  assert (Hz : forall i, (i < size d)%nat ->
                 ix (mu q) i = ix (mu p) i /\ ix (var q) i = ix (var p) i).
  { intros i Hi. destruct (Hpos i Hi) as [H1 H2].
    apply kl_elem_zero; auto. rewrite <- (It i Hi).
    apply (@Rsum_upto_zero_inv (size d) (ix t)); auto.
    intros j Hj. rewrite (It j Hj). destruct (Hpos j Hj).
    now apply kl_elem_nonneg. }
  split; apply (@tensor_ext d); auto; intros i Hi; apply (Hz i Hi).
Qed.


Lemma _log_norm_conf (d : shape) (x m v : tensor) :
  wf x -> get_shape x = d -> conf d m -> conf d v ->
  _log_norm x m v
  = Some (-0.5 * Rsum_upto (size d)
                   (fun i => ln (2 * ix v i * PI)
                             + (ix x i - ix m i) ^ 2 / ix v i)).
Proof.
  intros Wx Sx Cm Cv. unfold _log_norm.
  assert (Cx : conf d x) by (split; auto).
  destruct (@tbin_conf Rminus d x m Cx Cm) as (dd & E1 & C1 & S1' & I1).
  destruct (@tbin_conf Rdiv d (tmap (fun x => x ^ 2) dd) v)
    as (q & E2 & C2 & S2' & I2); auto; try now apply conf_tmap.
  destruct (@tbin_conf Rplus d (tmap (fun v => ln (2 * v * PI)) v) q)
    as (ss & E3 & C3 & S3 & I3); auto; try now apply conf_tmap.
  rewrite E1; cbn [obind]. rewrite E2; cbn [obind]. rewrite E3; cbn [obind].
  f_equal. f_equal.
  assert (Hs : get_shape ss = d).
  { apply S3. right. apply S2'. left. rewrite tmap_shape. apply S1'. now left. }
  rewrite (@reduce_sum_upto d ss (proj1 C3) Hs).
  apply Rsum_upto_ext. intros i Hi.
  rewrite (I3 i Hi), (I2 i Hi).
  rewrite (@ix_tmap d _ v i Cv Hi), (@ix_tmap d _ dd i C1 Hi), (I1 i Hi).
  reflexivity.
Qed.

(** X6: for a point [x] and a mean of one shape and a variance of that
    shape or scalar, [_log_norm] is symmetric in the point and the mean,
    and, the variances being positive, it is largest at the mean. *)
Theorem _log_norm_symmetric_max (d : shape) (x m v : tensor) :
  wf x -> get_shape x = d -> wf m -> get_shape m = d -> conf d v ->
  _log_norm x m v = _log_norm m x v /\
  ((forall i, (i < size d)%nat -> 0 < ix v i) ->
   exists a b,
     _log_norm x m v = Some a /\ _log_norm m m v = Some b /\ a <= b).
Proof.
  intros Wx Sx Wm Sm Cv.
  assert (Cx : conf d x) by (split; auto).
  assert (Cm : conf d m) by (split; auto).
  rewrite (@_log_norm_conf d x m v), (@_log_norm_conf d m x v),
    (@_log_norm_conf d m m v); auto.
  split.
  - do 2 f_equal. apply Rsum_upto_ext. intros i _. f_equal. f_equal. ring.
  - intros Hv. do 2 eexists. split; [reflexivity|]. split; [reflexivity|].
    apply Rmult_le_compat_neg_l; [lra|].
    apply Rsum_upto_le. intros i Hi. apply Rplus_le_compat_l.
    replace ((ix m i - ix m i) ^ 2 / ix v i) with 0 by (unfold Rdiv; ring).
    apply Rmult_le_pos; [apply pow2_ge_0|].
    left. apply Rinv_0_lt_compat. now apply Hv.
Qed.

(** ** The MAP dense layer *)

Lemma mapM_total {A B : Type} (f : A -> M B) (P : A -> B -> Prop) (l : list A) :
  Forall (fun a => forall s, exists b s', f a s = Ok (b, s') /\ P a b) l ->
  forall s, exists r s', mapM f l s = Ok (r, s') /\ Forall2 P l r.
Proof.
  induction 1 as [|a l Ha Hl IH]; intros s; simpl.
  - exists [], s. split; [reflexivity|constructor].
  - destruct (Ha s) as (b & s1 & Eb & Pb).
    destruct (IH s1) as (r & s2 & Er & Fr).
    exists (b :: r), s2. unfold bind at 1. rewrite Eb.
    unfold bind at 1. rewrite Er. split; [reflexivity|now constructor].
Qed.

(** The affine map of a dense layer on one batch. *)
Lemma matmul_bias (c o : nat) (m mw : list (list R)) (v : list R) :
  length mw = c -> length v = o ->
  (xW <-? matmul (Matr c m) (Matr o mw) ;; tbin Rplus xW (Vect v))
  = Some (Matr o (map (fun row => bcast Rplus (vecmat o row mw) v) m)).
Proof.
  intros Hw Hv. unfold matmul. rewrite Hw, Nat.eqb_refl. cbn [obind tbin].
  rewrite Hv, bdim_refl, map_map. reflexivity.
Qed.

Lemma reduce_sum_tmap_nonneg (f : R -> R) (t : tensor) :
  (forall x, 0 <= f x) -> 0 <= reduce_sum (tmap f t).
Proof.
  intros Hf. unfold reduce_sum. rewrite tmap_telts.
  apply Rsum_nonneg. rewrite Forall_map. apply Forall_forall.
  intros x _. apply Hf.
Qed.

Lemma l2_loss_nonneg (t : tensor) : 0 <= l2_loss t.
Proof.
  unfold l2_loss.
  pose proof (@reduce_sum_tmap_nonneg (fun x => x ^ 2) t pow2_ge_0). lra.
Qed.

Lemma _l1_loss_nonneg (t : tensor) : 0 <= _l1_loss t.
Proof. apply reduce_sum_tmap_nonneg. apply Rabs_pos. Qed.

(** What a returning [build_dense_map] did. *)
Lemma build_dense_map_inv o l1 l2 X s Phi pen s' :
  build_dense_map o l1 l2 X s = Ok ((Phi, pen), s') ->
  exists c W b g',
    _input_dim X s = Ok (c, s) /\
    wf W /\ get_shape W = S2 c o /\ wf b /\ get_shape b = S1 o /\
    s' = mkState (store s ++ [W; b]) g' /\
    mapM (fun x => lift (xW <-? matmul x W ;; tbin Rplus xW b)) X s'
    = Ok (Phi, s') /\
    pen = (if Rlt_dec 0 l1 then l1 * (_l1_loss W + _l1_loss b) else 0)
          + (if Rlt_dec 0 l2 then l2 * (l2_loss W + l2_loss b) else 0).
Proof.
  unfold build_dense_map, tf_random_normal. intros H.
  apply bind_ok in H. destruct H as (c & s0 & E0 & H).
  destruct (_input_dim_ok _ _ E0) as [-> _].
  apply bind_ok in H. destruct H as (eW & s1 & E1 & H).
  destruct (random_tensor_ok tf_randn (S2 c o) s) as (eW' & g1 & E1' & W1 & S1').
  rewrite E1' in E1. inversion E1; subst eW' s1; clear E1.
  apply bind_ok in H. destruct H as (W & s2 & E2 & H).
  unfold tf_Variable in E2. inversion E2; subst W s2; clear E2. cbn [store gen] in H.
  apply bind_ok in H. destruct H as (eb & s3 & E3 & H).
  destruct (random_tensor_ok tf_randn (S1 o) (mkState (store s ++ [eW]) g1))
    as (eb' & g2 & E3' & W2 & S2').
  rewrite E3' in E3. inversion E3; subst eb' s3; clear E3. cbn [store] in H.
  apply bind_ok in H. destruct H as (b & s4 & E4 & H).
  unfold tf_Variable in E4. inversion E4; subst b s4; clear E4. cbn [store gen] in H.
  apply bind_ok in H. destruct H as (Phi0 & s5 & E5 & H).
  unfold ret in H. inversion H; subst; clear H.
  destruct (mapM_lift_length _ _ _ E5) as [_ ->].
  exists c, eW, eb, g2. rewrite <- app_assoc. simpl.
  repeat split; auto.
  rewrite <- app_assoc in E5. exact E5.
Qed.

(** X7: on a non-empty list of matrices that share the feature dimension
    [c], [build_dense_map] returns; it creates exactly two Variables, a
    [c x output_dim] matrix [W] and a vector [b] of length [output_dim],
    and every output is [xW + b] for that one [W] and [b]: a matrix of
    [output_dim] columns with the rows of its input. *)
Theorem build_dense_map_returns (output_dim : nat) (l1_reg l2_reg : R)
  (X : tensors) (s : state) (c : nat) :
  X <> [] -> Forall (batch_of c) X ->
  exists Phi pen W b s',
    build_dense_map output_dim l1_reg l2_reg X s = Ok ((Phi, pen), s') /\
    store s' = store s ++ [W; b] /\
    get_shape W = S2 c output_dim /\ get_shape b = S1 output_dim /\
    Forall2 (fun x y =>
               (xW <-? matmul x W ;; tbin Rplus xW b) = Some y /\
               ncols y = output_dim /\ length (rows y) = length (rows x))
            X Phi.
Proof.
  intros Hne HX. destruct X as [|x0 X]; [congruence|].
  pose proof (Forall_inv HX) as [m0 ->].
  unfold build_dense_map, tf_random_normal. cbn [_input_dim].
  unfold bind at 1, ret at 1.
  unfold bind at 1. rewrite random_matrix.
  unfold bind at 1, tf_Variable at 1. cbn [store gen].
  unfold bind at 1. rewrite random_vector. cbn [store gen].
  unfold bind at 1, tf_Variable at 1. cbn [store gen].
  set (mw := fst (draw_rows tf_randn c output_dim (gen s))).
  set (g1 := snd (draw_rows tf_randn c output_dim (gen s))).
  set (v := fst (draws tf_randn output_dim g1)).
  set (s' := mkState _ (snd (draws tf_randn output_dim g1))).
  assert (Hmw : length mw = c) by apply draw_rows_length.
  assert (Hv : length v = output_dim) by apply draws_length.
  destruct (@mapM_lift_Forall2 _ _
              (fun x => xW <-? matmul x (Matr output_dim mw) ;;
                        tbin Rplus xW (Vect v))
              (fun x y =>
                 (xW <-? matmul x (Matr output_dim mw) ;;
                  tbin Rplus xW (Vect v)) = Some y /\
                 ncols y = output_dim /\ length (rows y) = length (rows x))
              (Matr c m0 :: X) s') as (Phi & E & F).
  { eapply Forall_impl; [|exact HX]. intros x [m ->].
    eexists. rewrite (@matmul_bias c output_dim m mw v Hmw Hv). split; [reflexivity|].
    split; [reflexivity|]. simpl. now rewrite length_map. }
  unfold bind at 1. rewrite E.
  do 5 eexists. split; [reflexivity|]. subst s'. cbn [store].
  rewrite <- app_assoc. simpl. split; [reflexivity|].
  split; [simpl; now rewrite Hmw|]. split; [simpl; now rewrite Hv|]. exact F.
Qed.

(** X8: the penalty [build_dense_map] returns is never negative, and it
    is 0 when neither regularisation coefficient is positive. *)
Theorem build_dense_map_penalty (output_dim : nat) (l1_reg l2_reg : R)
  (X : tensors) (s : state) Phi pen s' :
  build_dense_map output_dim l1_reg l2_reg X s = Ok ((Phi, pen), s') ->
  0 <= pen /\ (l1_reg <= 0 -> l2_reg <= 0 -> pen = 0).
Proof.
  intros H.
  destruct (build_dense_map_inv _ _ _ _ _ H)
    as (c & W & b & g' & _ & _ & _ & _ & _ & _ & _ & ->).
  pose proof (l2_loss_nonneg W). pose proof (l2_loss_nonneg b).
  pose proof (_l1_loss_nonneg W). pose proof (_l1_loss_nonneg b).
  split.
  - destruct (Rlt_dec 0 l1_reg), (Rlt_dec 0 l2_reg); nra.
  - intros Hl1 Hl2.
    destruct (Rlt_dec 0 l1_reg), (Rlt_dec 0 l2_reg); lra.
Qed.

(** ** Sampling *)

Lemma Normal_sample_conf (d : shape) (q : _Normal) (s : state) :
  Normal_built d q ->
  exists e t g',
    random_tensor tf_randn d s = Ok (e, mkState (store s) g') /\
    Normal_sample q s = Ok (t, mkState (store s) g') /\
    wf t /\ get_shape t = d /\
    forall i, (i < size d)%nat ->
      ix t i = ix (mu q) i + ix e i * sqrt (ix (var q) i).
Proof.
  intros [(Wm & Wv & Sm & Sv) Hsig].
  unfold Normal_sample, tf_random_normal. rewrite Sm.
  destruct (random_tensor_ok tf_randn d s) as (e & g' & E & We & Se).
  assert (Ce : conf d e) by (split; auto).
  assert (Cm : conf d (mu q)) by (split; auto).
  assert (Cv : conf d (var q)) by (split; auto).
  assert (Cs : conf d (sigma q)) by (rewrite Hsig; now apply conf_tmap).
  destruct (@tbin_conf Rmult d e (sigma q) Ce Cs) as (es & E1 & C1 & _ & I1).
  destruct (@tbin_conf Rplus d (mu q) es Cm C1) as (t & E2 & C2 & S2' & I2).
  exists e, t, g'. split; [exact E|]. unfold bind. rewrite E.
  rewrite E1. cbn [obind]. rewrite E2. cbn [lift]. split; [reflexivity|].
  split; [exact (proj1 C2)|]. split; [apply S2'; now left|].
  intros i Hi. rewrite (I2 i Hi), (I1 i Hi), Hsig.
  now rewrite (@ix_tmap d _ (var q) i Cv Hi).
Qed.

Lemma zeros_like_conf (d : shape) (t : tensor) :
  wf t -> get_shape t = d ->
  wf (zeros_like t) /\ get_shape (zeros_like t) = d /\
  forall i, (i < size d)%nat -> ix (zeros_like t) i = 0.
Proof.
  intros Wt St. unfold zeros_like. split; [now apply tmap_wf|].
  split; [now rewrite tmap_shape|].
  intros i Hi. apply (@ix_tmap d (fun _ => 0) t i); [split; auto|exact Hi].
Qed.

(** Past the selected index the loop only adds zeros. *)
Lemma Mix_sample_loop_rest (d : shape) (k : nat) (z : tensor) :
  wf z -> get_shape z = d -> (forall i, (i < size d)%nat -> ix z i = 0) ->
  forall qs i acc s,
    (k < i)%nat -> wf acc -> get_shape acc = d ->
    exists t,
      Mix_sample_loop k i z qs acc s = Ok (t, s) /\
      wf t /\ get_shape t = d /\
      forall j, (j < size d)%nat -> ix t j = ix acc j.
Proof.
  intros Wz Sz Hz. induction qs as [|qk qs IH]; intros i acc s Hk Wa Sa.
  - exists acc. simpl. repeat split; auto.
  - simpl. assert (E : (k =? i)%nat = false) by (apply Nat.eqb_neq; lia).
    rewrite E. unfold bind at 1, ret at 1.
    destruct (@tbin_conf Rplus d acc z) as (a' & Ea & Ca & Sa' & Ia);
      try (split; auto).
    unfold bind at 1. rewrite Ea. cbn [lift]. unfold ret at 1.
    destruct (IH (S i) a' s) as (t & Et & Wt & St & It);
      [lia|exact (proj1 Ca)|apply Sa'; now left|].
    exists t. split; [exact Et|]. split; [exact Wt|]. split; [exact St|].
    intros j Hj. rewrite (It j Hj), (Ia j Hj), (Hz j Hj). lra.
Qed.

(** From index [i <= k] on, the loop adds the sample of the component at
    index [k], if there is one, and zeros otherwise. *)
Lemma Mix_sample_loop_from (d : shape) (k : nat) (z : tensor) :
  wf z -> get_shape z = d -> (forall i, (i < size d)%nat -> ix z i = 0) ->
  forall qs i acc s,
    (i <= k)%nat -> Forall (Normal_built d) qs ->
    wf acc -> get_shape acc = d ->
    exists t s',
      Mix_sample_loop k i z qs acc s = Ok (t, s') /\
      wf t /\ get_shape t = d /\
      match nth_error qs (k - i) with
      | Some qk =>
          exists e,
            random_tensor tf_randn d s = Ok (e, s') /\
            forall j, (j < size d)%nat ->
              ix t j = ix acc j + (ix (mu qk) j + ix e j * sqrt (ix (var qk) j))
      | None => s' = s /\ forall j, (j < size d)%nat -> ix t j = ix acc j
      end.
Proof.
  intros Wz Sz Hz. induction qs as [|qk qs IH]; intros i acc s Hk HQ Wa Sa.
  - exists acc, s. simpl. split; [reflexivity|]. split; [auto|]. split; [auto|].
    destruct (k - i)%nat; simpl; auto.
  - pose proof (Forall_inv HQ) as Hq. pose proof (Forall_inv_tail HQ) as HQ'.
    simpl.
    destruct (k =? i)%nat eqn:E.
    + apply Nat.eqb_eq in E. subst i. rewrite Nat.sub_diag. cbn [nth_error].
      destruct (Normal_sample_conf s Hq) as (e & smp & g' & Ee & Es & Ws & Ss & Is).
      unfold bind at 1. rewrite Es.
      destruct (@tbin_conf Rplus d acc smp) as (a' & Ea & Ca & Sa' & Ia);
        try (split; auto).
      unfold bind at 1. rewrite Ea. cbn [lift]. unfold ret at 1.
      destruct (@Mix_sample_loop_rest d k z Wz Sz Hz qs (S k) a'
                  (mkState (store s) g'))
        as (t & Et & Wt & St & It);
        [lia|exact (proj1 Ca)|apply Sa'; now left|].
      exists t, (mkState (store s) g'). split; [exact Et|].
      split; [exact Wt|]. split; [exact St|].
      exists e. split; [exact Ee|].
      intros j Hj. rewrite (It j Hj), (Ia j Hj), (Is j Hj). reflexivity.
    + apply Nat.eqb_neq in E. unfold bind at 1, ret at 1.
      destruct (@tbin_conf Rplus d acc z) as (a' & Ea & Ca & Sa' & Ia);
        try (split; auto).
      unfold bind at 1. rewrite Ea. cbn [lift]. unfold ret at 1.
      destruct (IH (S i) a' s) as (t & s' & Et & Wt & St & Hsel);
        [lia|exact HQ'|exact (proj1 Ca)|apply Sa'; now left|].
      exists t, s'. split; [exact Et|]. split; [exact Wt|]. split; [exact St|].
      replace (k - i)%nat with (S (k - S i)) by lia. cbn [nth_error].
      destruct (nth_error qs (k - S i)) as [qsel|].
      * destruct Hsel as (e & Ee & Ie). exists e. split; [exact Ee|].
        intros j Hj. rewrite (Ie j Hj), (Ia j Hj), (Hz j Hj). lra.
      * destruct Hsel as [-> Ie]. split; [reflexivity|].
        intros j Hj. rewrite (Ie j Hj), (Ia j Hj), (Hz j Hj). lra.
Qed.

(** X9: [_MixPosterior.sample] on a mixture of [K >= 1] components over
    one shape makes the categorical draw and then returns, entry by
    entry, the reparameterised sample [mu + e * sqrt(var)] of the drawn
    component alone, [e] being the only normal noise it draws; were the
    drawn index past the last component, it would return zeros and draw
    no noise.  The store is left as it was. *)
Theorem Mix_sample_selects (d : shape) (self : _MixPosterior) (s : state)
  (k : nat) (g1 : G) :
  K self <> O -> comps self <> [] ->
  Forall (Normal_built d) (comps self) ->
  tf_multinomial (repeat (ln (1 / INR (K self))) (K self)) (gen s) = (k, g1) ->
  exists t s',
    Mix_sample self s = Ok (t, s') /\
    wf t /\ get_shape t = d /\ store s' = store s /\
    match nth_error (comps self) k with
    | Some qk =>
        exists e,
          random_tensor tf_randn d (mkState (store s) g1) = Ok (e, s') /\
          forall j, (j < size d)%nat ->
            ix t j = ix (mu qk) j + ix e j * sqrt (ix (var qk) j)
    | None =>
        s' = mkState (store s) g1 /\
        forall j, (j < size d)%nat -> ix t j = 0
    end.
Proof.
  intros HK Hne HQ Hk. unfold Mix_sample.
  destruct (K self) as [|K'] eqn:EK; [congruence|].
  unfold bind. rewrite Hk.
  destruct (comps self) as [|q0 qs] eqn:Ec; [congruence|].
  pose proof (Forall_inv HQ) as [(Wm & _ & Sm & _) _].
  destruct (@zeros_like_conf d (mu q0) Wm Sm) as (Wz & Sz & Hz).
  destruct (@Mix_sample_loop_from d k (zeros_like (mu q0)) Wz Sz Hz
              (q0 :: qs) O (zeros_like (mu q0)) (mkState (store s) g1))
    as (t & s' & Et & Wt & St & Hsel); auto; [lia|].
  exists t, s'. split; [exact Et|]. split; [exact Wt|]. split; [exact St|].
  split; [now apply Mix_sample_loop_store in Et|].
  rewrite Nat.sub_0_r in Hsel.
  destruct (nth_error (q0 :: qs) k) as [qk|].
  - destruct Hsel as (e & Ee & Ie). exists e. split; [exact Ee|].
    intros j Hj. rewrite (Ie j Hj), (Hz j Hj). lra.
  - destruct Hsel as [-> Ie]. split; [reflexivity|].
    intros j Hj. rewrite (Ie j Hj). now apply Hz.
Qed.

(** ** The variational dense layer returns on well-shaped input *)

Lemma NormPosterior_sigma d r s q s' :
  NormPosterior d r s = Ok (q, s') -> sigma q = tmap sqrt (var q).
Proof.
  intros E.
  destruct (NormPosterior_ok d r s) as (e1 & e2 & g' & E' & _).
  rewrite E' in E. inversion E; subst. reflexivity.
Qed.

Lemma replicateM_sigma d r k : forall s qs s',
  replicateM k (NormPosterior d r) s = Ok (qs, s') ->
  Forall (fun q => sigma q = tmap sqrt (var q)) qs.
Proof.
  induction k as [|k IH]; intros s qs s' E; simpl in E.
  - unfold ret in E. inversion E; constructor.
  - apply bind_ok in E. destruct E as (q & s1 & E1 & E).
    apply bind_ok in E. destruct E as (l & s2 & E2 & E).
    unfold ret in E. inversion E; subst.
    constructor; [now apply NormPosterior_sigma in E1|now apply IH in E2].
Qed.

Lemma dense_dists_sigma o reg lp mix c s pW pb qW qb s' :
  dense_dists o reg lp mix c s = Ok ((pW, pb, qW, qb), s') ->
  Forall (fun q => sigma q = tmap sqrt (var q)) (post_comps qW) /\
  Forall (fun q => sigma q = tmap sqrt (var q)) (post_comps qb).
Proof.
  unfold dense_dists. intros E.
  apply bind_ok in E. destruct E as (pW0 & s1 & _ & E).
  apply bind_ok in E. destruct E as (pb0 & s2 & _ & E).
  apply bind_ok in E. destruct E as ([qW0 qb0] & s3 & Eq & E).
  unfold ret in E. inversion E; subst; clear E.
  destruct (1 <? mix)%nat.
  - unfold MixPosterior in Eq.
    apply bind_ok in Eq. destruct Eq as (mW & s4 & EW & Eq).
    apply bind_ok in Eq. destruct Eq as (mb & s5 & Eb & Eq).
    unfold ret in Eq. inversion Eq; subst; clear Eq.
    apply bind_ok in EW. destruct EW as (cW & s6 & EW & EW').
    unfold ret in EW'. inversion EW'; subst; clear EW'.
    apply bind_ok in Eb. destruct Eb as (cb & s7 & Eb & Eb').
    unfold ret in Eb'. inversion Eb'; subst; clear Eb'.
    cbn [post_comps comps]. split; eapply replicateM_sigma; eassumption.
  - apply bind_ok in Eq. destruct Eq as (nW & s4 & EW & Eq).
    apply bind_ok in Eq. destruct Eq as (nb & s5 & Eb & Eq).
    unfold ret in Eq. inversion Eq; subst; clear Eq.
    cbn [post_comps]. split; constructor; auto;
      eapply NormPosterior_sigma; eassumption.
Qed.

(** A posterior whose components are built over the shape [d], with at
    least one component when it is a mixture. *)
Definition posterior_over (d : shape) (q : posterior) : Prop :=
  Forall (Normal_built d) (post_comps q) /\
  match q with
  | QNorm _ => True
  | QMix m => K m <> O /\ comps m <> []
  end.

Lemma sample_returns (d : shape) (q : posterior) (s : state) :
  posterior_over d q ->
  exists t s', sample q s = Ok (t, s') /\ wf t /\ get_shape t = d.
Proof.
  intros [HQ Hm]. destruct q as [n|m]; cbn [sample post_comps] in *.
  - apply Forall_inv in HQ.
    destruct (Normal_sample_conf s HQ) as (e & t & g' & _ & Et & Wt & St & _).
    eauto.
  - destruct Hm as [HK Hne]. unfold Mix_sample.
    destruct (K m) as [|K'] eqn:EK; [congruence|].
    unfold bind.
    destruct (tf_multinomial (repeat (ln (1 / INR (S K'))) (S K')) (gen s))
      as [k g1].
    destruct (comps m) as [|q0 qs] eqn:Ec; [congruence|].
    pose proof (Forall_inv HQ) as [(Wm & _ & Sm & _) _].
    destruct (@zeros_like_conf d (mu q0) Wm Sm) as (Wz & Sz & Hz).
    destruct (@Mix_sample_loop_from d k (zeros_like (mu q0)) Wz Sz Hz
                (q0 :: qs) O (zeros_like (mu q0)) (mkState (store s) g1))
      as (t & s' & Et & Wt & St & _); auto; [lia|].
    eauto.
Qed.

Lemma omap_Some {A B : Type} (f : A -> option B) (l : list A) :
  Forall (fun a => exists b, f a = Some b) l -> exists r, omap f l = Some r.
Proof.
  induction 1 as [|a l (b & Eb) Hl (r & Er)]; simpl; [eauto|].
  rewrite Eb. cbn [obind]. rewrite Er. cbn [obind]. eauto.
Qed.

Lemma Mix_KL_defined (d : shape) (self : _MixPosterior) (p : _Normal) :
  Forall (Normal_over d) (comps self) -> conf d (mu p) -> conf d (var p) ->
  exists kl, Mix_KL self p = Some kl.
Proof.
  intros HQ Cm Cv. unfold Mix_KL. rewrite Mix_KL_loop_sum.
  destruct (@omap_Some _ _ (Mix_KL_term self p) (comps self)) as (ts & E).
  { eapply Forall_impl; [|exact HQ]. intros qk (Wm & Wv & Sm & Sv).
    unfold Mix_KL_term.
    rewrite (@_log_norm_conf d (mu qk) (mu p) (var p)); auto. cbn [obind].
    destruct (@tbin_conf Rdiv d (var qk) (var p)) as (trt & Et & _);
      [split; auto|exact Cv|].
    rewrite Et. cbn [obind].
    destruct (@omap_Some _ _
                (fun qj => v <-? tbin Rplus (var qk) (var qj) ;;
                           l <-? _log_norm (mu qk) (mu qj) v ;;
                           Some (l - INR (K self)))
                (comps self)) as (lq & El).
    { eapply Forall_impl; [|exact HQ]. intros qj (Wm' & Wv' & Sm' & Sv').
      destruct (@tbin_conf Rplus d (var qk) (var qj)) as (v & Ev & Cv' & _);
        try (split; auto).
      rewrite Ev. cbn [obind].
      rewrite (@_log_norm_conf d (mu qk) (mu qj) v); auto; [|split; auto].
      cbn [obind]. eauto. }
    rewrite El. cbn [obind]. eauto. }
  rewrite E. cbn [obind]. eauto.
Qed.

Lemma KL_to_defined (d : shape) (q : posterior) (p : _Normal) :
  Forall (Normal_over d) (post_comps q) -> conf d (mu p) -> conf d (var p) ->
  exists t, KL_to q p = Some t.
Proof.
  intros HQ Cm Cv. destruct q as [n|m]; cbn [KL_to post_comps] in *.
  - apply Forall_inv in HQ. destruct (Normal_over_conf HQ) as [Cqm Cqv].
    destruct (@Normal_KL_conf d n p Cqm Cqv Cm Cv) as (t & E & _). eauto.
  - destruct (@Mix_KL_defined d m p HQ Cm Cv) as (kl & E).
    rewrite E. cbn [obind]. eauto.
Qed.

(** X10: on a non-empty list of matrices that share the feature dimension
    [c], [build_dense] returns, whatever the number of mixture components
    and the draws: each output is a matrix of [output_dim] columns with
    as many rows as its input. *)
Theorem build_dense_returns (output_dim : nat) (reg : R) (learn_prior : bool)
  (mixtures : nat) (X : tensors) (s : state) (c : nat) :
  X <> [] -> Forall (batch_of c) X ->
  exists Phi kl s',
    build_dense output_dim reg learn_prior mixtures X s = Ok ((Phi, kl), s') /\
    Forall2 (fun x y => exists m, y = Matr output_dim m /\
                                  length m = length (rows x)) X Phi.
Proof.
  intros Hne HX. destruct X as [|x0 X]; [congruence|].
  pose proof (Forall_inv HX) as [m0 ->].
  unfold build_dense. cbn [_input_dim]. unfold bind at 1, ret at 1.
  destruct (dense_dists_inv output_dim reg learn_prior mixtures c s)
    as (qW & qb & s1 & Ed & FW & Fb & _ & Hmix & _).
  destruct (dense_dists_sigma _ _ _ _ _ _ Ed) as [SW Sb].
  unfold bind at 1. rewrite Ed.
  assert (PW : posterior_over (S2 c output_dim) qW).
  { split.
    - rewrite Forall_forall in *. intros q Hq. split; [apply FW|apply SW]; auto.
    - destruct qW as [n|m]; auto.
      destruct (Nat.le_gt_cases mixtures 1) as [Hle|Hgt].
      + exfalso. destruct (dense_dists_inv output_dim reg learn_prior mixtures c s)
          as (qW' & qb' & s1' & Ed' & _ & _ & Hn & _).
        rewrite Ed in Ed'. inversion Ed'; subst.
        destruct (Hn Hle) as (nW & nb & HnW & _). discriminate.
      + destruct (Hmix Hgt) as (mW & mb & EW & Eb & KW & Kb & LW & Lb).
        inversion EW; subst mW. split; [lia|].
        destruct (comps m); [simpl in LW; lia|discriminate]. }
  assert (Pb : posterior_over (S1 output_dim) qb).
  { split.
    - rewrite Forall_forall in *. intros q Hq. split; [apply Fb|apply Sb]; auto.
    - destruct qb as [n|m]; auto.
      destruct (Nat.le_gt_cases mixtures 1) as [Hle|Hgt].
      + exfalso. destruct (dense_dists_inv output_dim reg learn_prior mixtures c s)
          as (qW' & qb' & s1' & Ed' & _ & _ & Hn & _).
        rewrite Ed in Ed'. inversion Ed'; subst.
        destruct (Hn Hle) as (nW & nb & _ & Hnb). discriminate.
      + destruct (Hmix Hgt) as (mW & mb & EW & Eb & KW & Kb & LW & Lb).
        inversion Eb; subst mb. split; [lia|].
        destruct (comps m); [simpl in Lb; lia|discriminate]. }
  destruct (@mapM_total _ _
              (fun x => W <- sample qW ;;
                        xW <- lift (matmul x W) ;;
                        b <- sample qb ;;
                        lift (tbin Rplus xW b))
              (fun x y => exists m, y = Matr output_dim m /\
                                    length m = length (rows x))
              (Matr c m0 :: X)) with (s := s1) as (Phi & s2 & EPhi & FPhi).
  { eapply Forall_impl; [|exact HX]. intros x [m ->] sa.
    destruct (sample_returns sa PW) as (W & sb & EW & WW & ShW).
    destruct W as [?|?|o mw]; try discriminate. injection ShW as Hmw Ho. subst o.
    destruct (sample_returns sb Pb) as (b & sc & Eb & Wb & Shb).
    destruct b as [?|v|? ?]; try discriminate. injection Shb as Hv.
    unfold bind at 1. rewrite EW. unfold bind at 1.
    unfold matmul. rewrite Hmw, Nat.eqb_refl. cbn [lift]. unfold ret at 1.
    unfold bind at 1. rewrite Eb. cbn [tbin]. rewrite Hv, bdim_refl.
    cbn [lift]. unfold ret. do 2 eexists. split; [reflexivity|].
    eexists. split; [reflexivity|]. simpl. now rewrite !length_map. }
  unfold bind at 1. rewrite EPhi.
  assert (HK : exists kl, dense_KL
                 (Normal_init (zeros (S2 c output_dim))
                    (Scal (if learn_prior then pos reg else reg)))
                 (Normal_init (zeros (S1 output_dim))
                    (Scal (if learn_prior then pos reg else reg))) qW qb
               = Some kl).
  { unfold dense_KL.
    destruct (@KL_to_defined (S2 c output_dim) qW
                (Normal_init (zeros (S2 c output_dim))
                   (Scal (if learn_prior then pos reg else reg))))
      as (kW & EkW).
    { eapply Forall_impl; [|exact FW]. intros q [H _]. exact H. }
    { split; apply zeros_ok || (left; apply zeros_ok). }
    { split; simpl; auto. }
    destruct (@KL_to_defined (S1 output_dim) qb
                (Normal_init (zeros (S1 output_dim))
                   (Scal (if learn_prior then pos reg else reg))))
      as (kb & Ekb).
    { eapply Forall_impl; [|exact Fb]. intros q [H _]. exact H. }
    { split; apply zeros_ok || (left; apply zeros_ok). }
    { split; simpl; auto. }
    rewrite EkW. cbn [obind]. rewrite Ekb. cbn [obind]. eauto. }
  destruct HK as (kl & Ekl). unfold bind at 1. rewrite Ekl. cbn [lift].
  unfold ret. do 3 eexists. split; [reflexivity|exact FPhi].
Qed.

(** ** Random Fourier features have unit norm *)

Lemma vecmat_length (c : nat) (m : list (list R)) :
  Forall (fun r => length r = c) m ->
  forall row, length (vecmat c row m) = c.
Proof.
  induction 1 as [|r m Hr Hm IH]; intros row.
  - destruct row; simpl; apply repeat_length.
  - destruct row as [|a row]; simpl; [apply repeat_length|].
    rewrite zipWith_length; rewrite length_map; [exact Hr|].
    now rewrite IH.
Qed.

Lemma weights_wf kern c n s :
  kernel_ok kern = true ->
  exists mp s1,
    weights kern c n s = Ok (Matr n mp, s1) /\ length mp = c /\
    Forall (fun r => length r = n) mp /\ store s1 = store s.
Proof.
  intros Hk.
  destruct (draw_rows_length np_randn c n (gen s)) as [Hl Hr].
  destruct kern as [l|p l]; cbn [weights].
  - rewrite RBF_weights_eq. do 2 eexists. split; [reflexivity|].
    split; [now rewrite length_map|]. split; [|reflexivity].
    rewrite Forall_map. eapply Forall_impl; [|exact Hr].
    intros r Hrow. simpl in *. now rewrite length_map.
  - rewrite Matern_weights_eq by now apply kernel_ok_Matern in Hk.
    do 2 eexists. split; [reflexivity|].
    split; [now rewrite length_map|]. split; [|reflexivity].
    rewrite Forall_map. eapply Forall_impl; [|exact Hr].
    intros r Hrow. simpl in *. rewrite zipWith_length; [exact Hrow|].
    now rewrite draws_length.
Qed.

Lemma Rsum_app (a b : list R) : Rsum (a ++ b) = Rsum a + Rsum b.
Proof.
  induction a as [|x a IH]; unfold Rsum in *; simpl; [lra|].
  rewrite IH. lra.
Qed.

Lemma cos_sin_squares (s : R) (z : list R) :
  Rsum (map (fun v => v ^ 2)
            (map (fun v => v / s) (map cos z ++ map sin z)))
  = INR (length z) * (/ s) ^ 2.
Proof.
  rewrite map_app, map_app, Rsum_app, !map_map.
  induction z as [|x z IH].
  - unfold Rsum; simpl. ring.
  - change (length (x :: z)) with (S (length z)). rewrite S_INR.
    cbn [map].
    change (Rsum ((cos x / s) ^ 2 :: map (fun v => (cos v / s) ^ 2) z))
      with ((cos x / s) ^ 2 + Rsum (map (fun v => (cos v / s) ^ 2) z)).
    change (Rsum ((sin x / s) ^ 2 :: map (fun v => (sin v / s) ^ 2) z))
      with ((sin x / s) ^ 2 + Rsum (map (fun v => (sin v / s) ^ 2) z)).
    pose proof (sin2_cos2 x) as H. unfold Rsqr in H.
    replace ((cos x / s) ^ 2 + Rsum (map (fun v => (cos v / s) ^ 2) z)
             + ((sin x / s) ^ 2 + Rsum (map (fun v => (sin v / s) ^ 2) z)))
      with ((sin x * sin x + cos x * cos x) * (/ s) ^ 2
            + (Rsum (map (fun v => (cos v / s) ^ 2) z)
               + Rsum (map (fun v => (sin v / s) ^ 2) z)))
      by (unfold Rdiv; ring).
    rewrite H, IH. ring.
Qed.

Lemma fourier_row_norm (n : nat) (z : list R) :
  (0 < n)%nat -> length z = n ->
  Rsum (map (fun v => v ^ 2)
            (map (fun v => v / sqrt (INR n)) (map cos z ++ map sin z))) = 1.
Proof.
  intros Hn Hz. rewrite cos_sin_squares, Hz.
  assert (H0 : 0 < INR n) by (apply lt_0_INR; exact Hn).
  assert (Hs : sqrt (INR n) * sqrt (INR n) = INR n)
    by (apply sqrt_sqrt; lra).
  assert (Hs0 : sqrt (INR n) <> 0).
  { intros E. rewrite E in Hs. lra. }
  rewrite <- Hs at 1. field. exact Hs0.
Qed.

(** X11: with at least one feature, a kernel whose weights return ([RBF],
    or [Matern] with [p >= 0]) and whose length scale is not 0, and a
    chi-square generator whose draws are positive (so that the weights
    are finite numbers), on a non-empty list of matrices that share the
    feature dimension [c], [build_randomRBF] returns and leaves the
    Variable store alone; every output has twice [n_features] columns and
    the rows of its input, and each of its rows has squared Euclidean
    norm 1. *)
Theorem build_randomRBF_unit_rows (n_features : nat) (kern : kernel)
  (X : tensors) (s : state) (c : nat) :
  kernel_ok kern = true -> lenscale_of kern <> 0 ->
  (forall df g, 0 < df -> 0 < fst (np_chisquare df g)) ->
  (0 < n_features)%nat -> X <> [] -> Forall (batch_of c) X ->
  exists Phi s',
    build_randomRBF n_features kern X s = Ok ((Phi, 0), s') /\
    store s' = store s /\
    Forall2 (fun x y =>
               exists m,
                 y = Matr (n_features + n_features) m /\
                 length m = length (rows x) /\
                 Forall (fun row =>
                           length row = (n_features + n_features)%nat /\
                           Rsum (map (fun v => v ^ 2) row) = 1) m)
            X Phi.
Proof.
  intros Hk _ _ Hn Hne HX.
  destruct (weights_wf kern c n_features s Hk)
    as (mp & s1 & Hw & Hlen & Hrows & Hst).
  destruct X as [|x0 X]; [congruence|].
  pose proof (Forall_inv HX) as [m0 ->].
  unfold build_randomRBF. cbn [_input_dim]. unfold bind at 1, ret at 1.
  unfold bind at 1. rewrite Hw.
  destruct (@mapM_lift_Forall2 _ _ (phi n_features (Matr n_features mp))
              (fun x y =>
                 exists m,
                   y = Matr (n_features + n_features) m /\
                   length m = length (rows x) /\
                   Forall (fun row =>
                             length row = (n_features + n_features)%nat /\
                             Rsum (map (fun v => v ^ 2) row) = 1) m)
              (Matr c m0 :: X) s1) as (Phi & E & F).
  { eapply Forall_impl; [|exact HX]. intros x [m ->]. subst c.
    rewrite phi_matrix. eexists. split; [reflexivity|].
    cbn [fourier_features]. eexists. split; [reflexivity|].
    split; [simpl; now rewrite length_map|].
    rewrite Forall_map. apply Forall_forall. intros row _.
    pose proof (vecmat_length Hrows row) as Hz. split.
    - rewrite length_map, length_app, !length_map, Hz. reflexivity.
    - now apply fourier_row_norm. }
  unfold bind at 1. rewrite E. unfold ret.
  exists Phi, s1. split; [reflexivity|]. split; [exact Hst|exact F].
Qed.

(** ** Errors of the layers that read the feature dimension *)



(** ** Length scale and composition *)

(** X13: the length scale of a kernel only rescales its weights: from one
    generator state, a call of the weights of a kernel does what the call
    of the same kernel with length scale 1 does, followed by the division
    of the matrix by the length scale: when the latter returns [P] the
    former returns [P / lenscale] with the generator in the same state,
    and when the latter raises (a [Matern] kernel with [p < 0]) the former
    raises the same error. *)
Theorem weights_lenscale (kern : kernel) (input_dim n_features : nat)
  (s : state) :
  weights kern input_dim n_features s
  = (P <- weights (with_lenscale kern 1) input_dim n_features ;;
     ret (tmap (fun x => x / lenscale_of kern) P)) s.
Proof.
  destruct kern as [l|p l]; cbn [weights with_lenscale lenscale_of].
  - unfold bind. rewrite !RBF_weights_eq. unfold ret.
    cbn [tmap]. do 3 f_equal. rewrite map_map. apply map_ext. intros row.
    rewrite map_map. apply map_ext. intros x. unfold Rdiv.
    rewrite Rinv_1. ring.
  - destruct (Z_lt_le_dec p 0) as [Hp|Hp].
    + unfold bind. now rewrite !Matern_weights_raises.
    + unfold bind. rewrite !Matern_weights_eq by exact Hp. unfold ret.
      cbn [tmap]. do 3 f_equal. rewrite map_map. apply map_ext. intros row.
      rewrite map_zipWith.
      generalize (fst (draws (np_chisquare (2 * (IZR p + 0.5))) n_features
                         (snd (draw_rows np_randn input_dim n_features (gen s))))).
      induction row as [|y row IH]; intros [|u us]; simpl; auto.
      f_equal; [|apply IH]. unfold Rdiv. rewrite Rinv_1. ring.
Qed.

(** X14: two activation layers in a row are the activation layer of the
    composed function, and an identity layer before or after an
    activation layer changes nothing; the KL terms are all 0. *)
Theorem activation_compose (g h : tensor -> tensor) (X : tensors) (s : state) :
  bind (activation h X) (fun r => activation g (fst r)) s
  = activation (fun x => g (h x)) X s /\
  bind (eye X) (fun r => activation h (fst r)) s = activation h X s /\
  bind (activation h X) (fun r => eye (fst r)) s = activation h X s.
Proof.
  unfold activation, build_activation, eye, build_eye, bind, ret. cbn [fst].
  rewrite map_map. auto.
Qed.

End Layers.

(** * Concrete runs

    A generator whose state counts the draws made so far, with fixed
    draws; [exp] as the positivity transform. *)

Definition randn_zero (g : nat) : R * nat := (0, S g).

(** Every normal draw is 0 but the seventh, which is 1. *)
Definition randn_late (g : nat) : R * nat :=
  ((if (g =? 6)%nat then 1 else 0), S g).

(** Every normal draw is the number of draws made before it. *)
Definition randn_count (g : nat) : R * nat := (INR g, S g).

Definition chisquare_one (df : R) (g : nat) : R * nat := (1, S g).

Definition multinomial_first (logits : list R) (g : nat) : nat * nat :=
  (0%nat, S g).

Definition st0 : state nat := mkState [] 0%nat.

Definition two_layers : list (tensors -> M nat (tensors * R)) :=
  [@eye nat; @activation_default nat].

(** Two inputs of three samples each, every sample a 1x1 matrix. *)
Definition cat_input : list tensors :=
  [[Matr 1 [[1]]; Matr 1 [[2]]; Matr 1 [[3]]];
   [Matr 1 [[4]]; Matr 1 [[5]]; Matr 1 [[6]]]].

Definition q_ex : _Normal := Normal_init (Vect [0; 1]) (Vect [1; 2]).
Definition p_ex : _Normal := Normal_init (Vect [0; 0]) (Vect [1; 1]).

(** A mixture of two standard normal components over one entry, and a
    standard normal prior with its scalar variance. *)
Definition comp_ex : _Normal := Normal_init (Vect [0]) (Vect [1]).
Definition mix_ex : _MixPosterior := mkMix [comp_ex; comp_ex] 2.
Definition prior_ex : _Normal := Normal_init (Vect [0]) (Scal 1).


Ltac run :=
  cbv - [Rplus Rmult Rminus Rdiv Rinv Ropp exp ln sqrt IZR INR PI cos sin pow
         Rsum Rlt Rle Rgt Rge].

(** ** lmap *)

(** C7 (counterexample): with no layers and no inputs the lengths match,
    yet [build_lmap] raises: the transposed results cannot be unpacked;
    and with one layer and one input it raises what the sub-layer raises
    (here a random Fourier layer given an empty sample list). *)
Lemma build_lmap_matching_lengths_raise :
  (length (@nil tensors) = length (@nil (tensors -> M nat (tensors * R))) /\
   build_lmap (@nil (tensors -> M nat (tensors * R))) (@nil tensors) st0
   = Raise (ValueError "not enough values to unpack (expected 2, got 0)")) /\
  (length [@nil tensor]
   = length [build_randomRBF randn_zero chisquare_one 2 (RBF 1)] /\
   build_lmap [build_randomRBF randn_zero chisquare_one 2 (RBF 1)] [[]] st0
   = Raise IndexError).
Proof. repeat split; reflexivity. Qed.

Lemma build_lmap_spec_witness :
  build_lmap two_layers [[Scal 1]; [Scal 2]; [Scal 3]] st0
  = Raise (ValueError "Number of layers and inputs not the same!") /\
  build_lmap two_layers [[Scal 1]; [Scal 2]] st0
  = Ok (([[Scal 1]; [Scal 2]], Rsum [0; 0]), st0).
Proof.
  split.
  - apply (proj1 (build_lmap_spec two_layers [[Scal 1]; [Scal 2]; [Scal 3]] st0)).
    simpl. lia.
  - apply (proj2 (build_lmap_spec two_layers [[Scal 1]; [Scal 2]] st0)
             [([Scal 1], 0); ([Scal 2], 0)] st0).
    + discriminate.
    + repeat econstructor.
Defined.

(** ** cat *)

(** C4: on two inputs of three samples, [build_cat] returns two tensors,
    each the three samples of one input side by side, where the
    documented per-sample concatenation returns three tensors, each
    joining the two inputs; the same happens to what [fork] and [lmap]
    hand over. *)
Theorem build_cat_joins_within_inputs :
  build_cat cat_input st0
  = Ok (([Matr 3 [[1; 2; 3]]; Matr 3 [[4; 5; 6]]], 0), st0) /\
  cat_documented cat_input st0
  = Ok (([Matr 2 [[1; 4]]; Matr 2 [[2; 5]]; Matr 2 [[3; 6]]], 0), st0) /\
  bind (fork 2 [Matr 1 [[1]]; Matr 1 [[2]]; Matr 1 [[3]]])
       (fun Xs => bind (lmap two_layers (fst Xs))
                       (fun Phis => cat (fst Phis))) st0
  = Ok (([Matr 3 [[1; 2; 3]]; Matr 3 [[1; 2; 3]]], 0), st0).
Proof. repeat split; reflexivity. Qed.

(** ** Kernels *)

(** C9 (counterexample): with [p = -1] the degrees of freedom are
    [2*(-1+0.5) = -1], which the chi-square generator refuses:
    [Matern.weights] raises [ValueError] and returns no matrix. *)
Lemma Matern_weights_negative_p :
  Matern_weights randn_zero chisquare_one (-1) 1 1 1 st0
  = Raise (ValueError "df <= 0").
Proof. apply Matern_weights_raises. lia. Qed.

Lemma kernel_weights_spec_witness :
  (0 <= 1)%Z /\
  Matern_weights randn_zero chisquare_one 1 2 1 2 st0
  = Ok (Matr 2 [[0 * sqrt (2 * (1 + 0.5) / 1) / 2;
                 0 * sqrt (2 * (1 + 0.5) / 1) / 2]],
        mkState [] 4%nat).
Proof.
  split; [lia|].
  apply (proj1 (proj2 (@kernel_weights_spec nat randn_zero chisquare_one
                         1 2 1 2 st0))).
  lia.
Defined.

(** ** Random Fourier features *)

(** C8 (counterexample): on the empty input list [build_randomRBF] raises
    [IndexError] before any projection matrix is drawn; on a list whose
    second tensor has another feature dimension than the first it raises
    the shape error of the matrix product; with the kernel [Matern] of
    [p = -1] it raises the [ValueError] of the chi-square generator; and
    two invocations of one build function, on the same input, return
    different features: the first maps its input under the matrix [[0]],
    the second under the matrix [[1]] drawn by its own call of
    [kernel.weights]. *)
Lemma build_randomRBF_raises :
  build_randomRBF randn_zero chisquare_one 2 (RBF 1) [] st0 = Raise IndexError /\
  build_randomRBF randn_zero chisquare_one 2 (RBF 1)
    [Matr 1 [[1]]; Matr 2 [[1; 2]]] st0 = Raise ShapeError /\
  build_randomRBF randn_zero chisquare_one 2 (Matern (-1) 1)
    [Matr 1 [[1]]] st0 = Raise (ValueError "df <= 0") /\
  (let layer := build_randomRBF randn_count chisquare_one 1 (RBF 1) in
   bind (layer [Matr 1 [[1]]])
        (fun r1 => bind (layer [Matr 1 [[1]]]) (fun r2 => ret (r1, r2))) st0
   = Ok ((([Matr 2 [[1; 0]]], 0), ([Matr 2 [[cos 1; sin 1]]], 0)),
         mkState [] 2%nat) /\
   [Matr 2 [[1; 0]]] <> [Matr 2 [[cos 1; sin 1]]]).
Proof.
  split; [reflexivity|]. split; [reflexivity|]. split.
  - unfold build_randomRBF. cbn [_input_dim]. unfold bind at 1, ret at 1.
    unfold bind at 1. rewrite weights_raises; reflexivity.
  - cbv zeta. split.
    + assert (E0 : cos (1 * (INR 0 / 1) + 0) / sqrt (INR 1) = 1).
      { simpl INR. rewrite sqrt_1.
        replace (1 * (0 / 1) + 0) with 0 by field. rewrite cos_0. field. }
      assert (E1 : sin (1 * (INR 0 / 1) + 0) / sqrt (INR 1) = 0).
      { simpl INR. rewrite sqrt_1.
        replace (1 * (0 / 1) + 0) with 0 by field. rewrite sin_0. field. }
      assert (E2 : cos (1 * (INR 1 / 1) + 0) / sqrt (INR 1) = cos 1).
      { simpl INR. rewrite sqrt_1.
        replace (1 * (1 / 1) + 0) with 1 by field. field. }
      assert (E3 : sin (1 * (INR 1 / 1) + 0) / sqrt (INR 1) = sin 1).
      { simpl INR. rewrite sqrt_1.
        replace (1 * (1 / 1) + 0) with 1 by field. field. }
      run. rewrite E0, E1, E2, E3. reflexivity.
    + intros H. injection H as H.
      assert (Hs : 0 < sin 1).
      { apply sin_gt_0; [lra|]. pose proof PI2_1. lra. }
      lra.
Qed.

Lemma build_randomRBF_spec_witness :
  exists P s1 P' s2,
    weights randn_zero chisquare_one (RBF 1) 1 2 st0 = Ok (P, s1) /\
    get_shape P = S2 1 2 /\
    build_randomRBF randn_zero chisquare_one 2 (RBF 1)
      [Matr 1 [[1]]; Matr 1 [[2]; [3]]] st0
    = Ok ((map (fourier_features 2 P) [Matr 1 [[1]]; Matr 1 [[2]; [3]]], 0), s1) /\
    weights randn_zero chisquare_one (RBF 1) 1 2 s1 = Ok (P', s2) /\
    bind (build_randomRBF randn_zero chisquare_one 2 (RBF 1)
            [Matr 1 [[1]]; Matr 1 [[2]; [3]]])
         (fun r1 =>
            bind (build_randomRBF randn_zero chisquare_one 2 (RBF 1)
                    [Matr 1 [[1]]; Matr 1 [[2]; [3]]])
                 (fun r2 => ret (r1, r2))) st0
    = Ok (((map (fourier_features 2 P) [Matr 1 [[1]]; Matr 1 [[2]; [3]]], 0),
           (map (fourier_features 2 P') [Matr 1 [[1]]; Matr 1 [[2]; [3]]], 0)),
          s2).
Proof.
  apply (build_randomRBF_spec randn_zero chisquare_one 2 (RBF 1)
           (X := [Matr 1 [[1]]; Matr 1 [[2]; [3]]]) st0 (c := 1%nat)).
  - reflexivity.
  - discriminate.
  - repeat constructor; eexists; reflexivity.
Defined.

(** ** The KL divergence between diagonal Gaussians *)

Lemma Normal_KL_nonneg_witness :
  exists t,
    Normal_KL q_ex p_ex = Some t /\
    0 <= reduce_sum t /\
    (mu q_ex = mu p_ex -> var q_ex = var p_ex -> reduce_sum t = 0).
Proof.
  apply (@Normal_KL_nonneg (S1 2) q_ex p_ex).
  - unfold Normal_over; simpl; auto.
  - unfold Normal_over; simpl; auto.
  - unfold all_pos; simpl. repeat constructor; lra.
  - unfold all_pos; simpl. repeat constructor; lra.
Defined.

Lemma Normal_KL_spec_witness :
  (exists t,
      Normal_KL q_ex p_ex = Some t /\ wf t /\ get_shape t = S1 2 /\
      forall i, (i < size (S1 2))%nat ->
        ix t i = kl_elem (ix (mu q_ex) i) (ix (var q_ex) i)
                         (ix (mu p_ex) i) (ix (var p_ex) i)) /\
  (exists Phi kl s',
      build_dense randn_late multinomial_first exp 1 1 false 1
                  [Matr 1 [[1]]] st0 = Ok ((Phi, kl), s') /\
      exists input_dim pW pb qW qb s1,
        _input_dim [Matr 1 [[1]]] st0 = Ok (input_dim, st0) /\
        dense_dists randn_late exp 1 1 false 1 input_dim st0
        = Ok ((pW, pb, QNorm qW, QNorm qb), s1) /\
        kl = Rsum_upto (input_dim * 1)
               (fun i => kl_elem (ix (mu qW) i) (ix (var qW) i)
                                 (ix (mu pW) i) (ix (var pW) i))
             + Rsum_upto 1
                 (fun i => kl_elem (ix (mu qb) i) (ix (var qb) i)
                                   (ix (mu pb) i) (ix (var pb) i))).
Proof.
  split.
  - apply (proj1 (@Normal_KL_spec nat randn_late multinomial_first exp)
             (S1 2) q_ex p_ex);
      unfold Normal_over; simpl; auto.
  - do 3 eexists. split; [reflexivity|].
    eapply (proj2 (@Normal_KL_spec nat randn_late multinomial_first exp)
              1%nat 1 false 1%nat [Matr 1 [[1]]] st0);
      [lia|reflexivity].
Defined.

(** ** The mixture bound *)

Lemma exp_halves (x : R) : exp (x - ln 2) + (exp (x - ln 2) + 0) = exp x.
Proof.
  unfold Rminus. rewrite exp_plus, exp_Ropp, exp_ln by lra. field.
Qed.

Lemma Mix_KL_documented_ex :
  Mix_KL_documented mix_ex prior_ex = Some (1 / 2 - ln 2 / 2).
Proof.
  run. unfold Rsum. cbn [fold_right INR].
  assert (H1 : ln (2 * 1 * PI) = ln 2 + ln PI).
  { replace (2 * 1 * PI) with (2 * PI) by ring.
    apply ln_mult; [lra|apply PI_RGT_0]. }
  assert (H2 : ln (2 * (1 + 1) * PI) = ln 2 + ln 2 + ln PI).
  { replace (2 * (1 + 1) * PI) with (2 * (2 * PI)) by ring.
    pose proof PI_RGT_0.
    rewrite ln_mult by lra. rewrite ln_mult by lra. ring. }
  rewrite H1, H2.
  replace (1 + 1) with 2 by ring.
  rewrite exp_halves, ln_exp. f_equal. field.
Qed.

(** C1: on a mixture of two standard normal components and a standard
    normal prior, [_MixPosterior.KL] returns [log 2 / 2 - 3/2], the
    overlap log-densities being shifted by [K = 2]; the documented bound,
    which shifts them by [log K], is [1/2 - log 2 / 2], and it is the
    larger of the two. *)
Theorem Mix_KL_subtracts_K :
  Mix_KL mix_ex prior_ex = Some (ln 2 / 2 - 3 / 2) /\
  Mix_KL_documented mix_ex prior_ex = Some (1 / 2 - ln 2 / 2) /\
  ln 2 / 2 - 3 / 2 < 1 / 2 - ln 2 / 2.
Proof.
  split; [|split; [apply Mix_KL_documented_ex|]].
  - rewrite Mix_KL_offset; [|discriminate|reflexivity].
    rewrite Mix_KL_documented_ex. cbn [obind K mix_ex INR]. f_equal.
    replace (1 + 1) with 2 by ring. field.
  - pose proof (exp_ineq1_le (ln 2)) as H.
    rewrite exp_ln in H by lra. lra.
Qed.

(** ** Variances of the dense layer *)

(** C3 (counterexample): with [learn_prior] unset and [reg = 0] the two
    priors [dense_var] creates have variance 0, which is neither positive
    nor the image under [pos] of any Variable. *)
Lemma dense_var_fixed_prior_variance :
  (forall x, 0 < exp x) /\
  exists pW pb qW qb s',
    dense_dists randn_zero exp 1 0 false 1 1 st0 = Ok ((pW, pb, qW, qb), s') /\
    var pW = Scal 0 /\ var pb = Scal 0 /\
    ~ all_pos (var pW) /\ ~ all_pos (var pb) /\
    ~ routed exp (store s') (var pW).
Proof.
  split; [apply exp_pos|].
  do 5 eexists. split; [reflexivity|].
  split; [reflexivity|]. split; [reflexivity|].
  split; [|split].
  - intros H. inversion H; subst. lra.
  - intros H. inversion H; subst. lra.
  - intros (v & _ & E). destruct v as [x|v|c m]; simpl in E; try discriminate.
    inversion E as [E']. pose proof (exp_pos x). lra.
Qed.

Lemma dense_var_variances_witness :
  exists pW pb qW qb s',
    dense_dists randn_zero exp 1 1 true 2 1 st0 = Ok ((pW, pb, qW, qb), s') /\
    Forall (fun q => routed exp (store s') (var q))
           (post_comps qW ++ post_comps qb) /\
    routed exp (store s') (var pW) /\ routed exp (store s') (var pb) /\
    Forall (fun q => all_pos (var q)) (post_comps qW ++ post_comps qb) /\
    all_pos (var pW) /\ all_pos (var pb).
Proof.
  eassert (H : dense_dists randn_zero exp 1 1 true 2 1 st0 = Ok ((_, _, _, _), _))
    by (run; reflexivity).
  destruct (dense_var_variances randn_zero exp 1 1 true 2 1 st0 H)
    as (H1 & H2 & _ & H4).
  destruct (H2 eq_refl) as [H2a H2b].
  destruct (H4 exp_pos) as [H4a H4b].
  destruct (H4b (or_introl eq_refl)) as [H4c H4d].
  do 5 eexists. split; [exact H|]. repeat split; assumption.
Defined.

(** ** Parameters of the dense layer *)



(** * Concrete runs of the further properties *)

Ltac run_more :=
  cbv - [Rplus Rmult Rminus Rdiv Rinv Ropp exp ln sqrt IZR INR PI cos sin pow
         Rsum Rlt Rle Rgt Rge Rabs Rlt_dec].

Definition add_input : list tensors :=
  [[Vect [1; 2]; Vect [3; 4]]; [Vect [5; 6]; Vect [7; 8]; Vect [9; 10]]].


Lemma build_lmap_propagates_witness :
  build_lmap ([@eye nat] ++ [build_randomRBF randn_zero chisquare_one 2 (RBF 1)]
              ++ [@eye nat])
             ([[Scal 1]] ++ [[]] ++ [[Scal 2]]) st0
  = Raise IndexError.
Proof.
  apply (@build_lmap_propagates nat tensors tensors
           [@eye nat] [@eye nat]
           (build_randomRBF randn_zero chisquare_one 2 (RBF 1))
           [[Scal 1]] [] [[Scal 2]] st0 [([Scal 1], 0)] st0 IndexError).
  - repeat econstructor.
  - reflexivity.
  - reflexivity.
Defined.

Lemma build_cat_rows_witness :
  build_cat [[Matr 1 [[1]]]; []] st0 = Raise ShapeError /\
  exists Phi,
    build_cat cat_input st0 = Ok ((Phi, 0), st0) /\
    Forall2 (fun X t =>
               ncols t = list_sum (map ncols X) /\
               Forall (fun x => length (rows x) = length (rows t)) X /\
               forall i, (i < length (rows t))%nat ->
                 nth i (rows t) [] = concat (map (fun x => nth i (rows x) []) X))
            cat_input Phi.
Proof.
  split.
  - apply (proj1 (build_cat_rows [[Matr 1 [[1]]]; []] st0)). simpl. auto.
  - apply (proj2 (build_cat_rows cat_input st0)).
    repeat constructor; try discriminate; exists 1%nat;
      repeat constructor; do 2 eexists; split; reflexivity.
Defined.

Lemma build_add_sums_witness :
  build_add [[Scal 1]; []] st0 = Raise ShapeError /\
  exists Phi,
    build_add add_input st0 = Ok ((Phi, 0), st0) /\
    Forall2 (fun X t =>
               wf t /\
               Forall (fun x => get_shape x = get_shape t) X /\
               forall i, (i < size (get_shape t))%nat ->
                 ix t i = Rsum (map (fun x => ix x i) X))
            add_input Phi.
Proof.
  split.
  - apply (proj1 (build_add_sums [[Scal 1]; []] st0)). simpl. auto.
  - apply (proj2 (build_add_sums add_input st0)).
    repeat constructor; try discriminate; exists (S1 2);
      repeat constructor.
Defined.

Lemma Normal_KL_zero_only_if_equal_witness :
  mu p_ex = mu p_ex /\ var p_ex = var p_ex.
Proof.
  eassert (E : Normal_KL p_ex p_ex = Some _) by (run_more; reflexivity).
  eapply (@Normal_KL_zero_only_if_equal (S1 2) p_ex p_ex).
  - unfold Normal_over; simpl; auto.
  - unfold Normal_over; simpl; auto.
  - unfold all_pos; simpl. repeat constructor; lra.
  - unfold all_pos; simpl. repeat constructor; lra.
  - exact E.
  - unfold reduce_sum, Rsum. simpl. rewrite ln_1. field.
Defined.

Lemma _log_norm_symmetric_max_witness :
  _log_norm (Vect [1; 2]) (Vect [0; 3]) (Scal 1)
  = _log_norm (Vect [0; 3]) (Vect [1; 2]) (Scal 1) /\
  exists a b,
    _log_norm (Vect [1; 2]) (Vect [0; 3]) (Scal 1) = Some a /\
    _log_norm (Vect [0; 3]) (Vect [0; 3]) (Scal 1) = Some b /\ a <= b.
Proof.
  destruct (@_log_norm_symmetric_max (S1 2) (Vect [1; 2]) (Vect [0; 3]) (Scal 1))
    as [H1 H2]; simpl; auto.
  - split; simpl; auto.
  - split; [exact H1|]. apply H2. intros i _. simpl. lra.
Defined.


Lemma build_dense_map_returns_witness :
  exists Phi pen W b s',
    build_dense_map randn_zero 2 1 1 [Matr 1 [[1]]; Matr 1 [[2]; [3]]] st0
    = Ok ((Phi, pen), s') /\
    store s' = store st0 ++ [W; b] /\
    get_shape W = S2 1 2 /\ get_shape b = S1 2 /\
    Forall2 (fun x y =>
               obind (matmul x W) (fun xW => tbin Rplus xW b) = Some y /\
               ncols y = 2%nat /\ length (rows y) = length (rows x))
            [Matr 1 [[1]]; Matr 1 [[2]; [3]]] Phi.
Proof.
  apply (build_dense_map_returns randn_zero 2 1 1
           (X := [Matr 1 [[1]]; Matr 1 [[2]; [3]]]) st0 (c := 1%nat)).
  - discriminate.
  - repeat constructor; eexists; reflexivity.
Defined.

Lemma build_dense_map_penalty_witness :
  exists Phi pen s',
    build_dense_map randn_zero 2 1 (-1) [Matr 1 [[1]]] st0
    = Ok ((Phi, pen), s') /\
    0 <= pen /\ (1 <= 0 -> -1 <= 0 -> pen = 0).
Proof.
  eassert (H : build_dense_map randn_zero 2 1 (-1) [Matr 1 [[1]]] st0
               = Ok ((_, _), _)) by (run_more; reflexivity).
  do 3 eexists. split; [exact H|].
  apply (build_dense_map_penalty randn_zero 2 1 (-1) [Matr 1 [[1]]] st0 H).
Defined.

Lemma Mix_sample_selects_witness :
  exists t s',
    Mix_sample randn_late multinomial_first mix_ex st0 = Ok (t, s') /\
    wf t /\ get_shape t = S1 1 /\ store s' = store st0 /\
    match nth_error (comps mix_ex) 0 with
    | Some qk =>
        exists e,
          random_tensor randn_late (S1 1) (mkState (store st0) 1%nat)
          = Ok (e, s') /\
          forall j, (j < size (S1 1))%nat ->
            ix t j = ix (mu qk) j + ix e j * sqrt (ix (var qk) j)
    | None =>
        s' = mkState (store st0) 1%nat /\
        forall j, (j < size (S1 1))%nat -> ix t j = 0
    end.
Proof.
  apply (@Mix_sample_selects nat randn_late multinomial_first (S1 1) mix_ex st0
           0%nat 1%nat).
  - discriminate.
  - discriminate.
  - repeat constructor.
  - reflexivity.
Defined.

Lemma build_dense_returns_witness :
  exists Phi kl s',
    build_dense randn_late multinomial_first exp 3 1 true 2
                [Matr 2 [[1; 2]]; Matr 2 [[3; 4]; [5; 6]]] st0
    = Ok ((Phi, kl), s') /\
    Forall2 (fun x y => exists m, y = Matr 3 m /\ length m = length (rows x))
            [Matr 2 [[1; 2]]; Matr 2 [[3; 4]; [5; 6]]] Phi.
Proof.
  apply (build_dense_returns randn_late multinomial_first exp 3 1 true 2
           (X := [Matr 2 [[1; 2]]; Matr 2 [[3; 4]; [5; 6]]]) st0 (c := 2%nat)).
  - discriminate.
  - repeat constructor; eexists; reflexivity.
Defined.

Lemma build_randomRBF_unit_rows_witness :
  exists Phi s',
    build_randomRBF randn_zero chisquare_one 2 (Matern 1 1)
      [Matr 1 [[1]]; Matr 1 [[2]; [3]]] st0 = Ok ((Phi, 0), s') /\
    store s' = store st0 /\
    Forall2 (fun x y =>
               exists m,
                 y = Matr (2 + 2) m /\
                 length m = length (rows x) /\
                 Forall (fun row =>
                           length row = (2 + 2)%nat /\
                           Rsum (map (fun v => v ^ 2) row) = 1) m)
            [Matr 1 [[1]]; Matr 1 [[2]; [3]]] Phi.
Proof.
  apply (build_randomRBF_unit_rows randn_zero chisquare_one (Matern 1 1)
           (X := [Matr 1 [[1]]; Matr 1 [[2]; [3]]]) st0 (c := 1%nat)).
  - reflexivity.
  - simpl. lra.
  - intros df g _. simpl. lra.
  - lia.
  - discriminate.
  - repeat constructor; eexists; reflexivity.
Defined.

